(** * A shallow embedding of the WebRTC hub's Broadcaster

    The development follows [broadcast.go] and [whip.go]:

    - the two distribution policies [AllDist] and [RRDist];
    - the [Broadcaster] registry (three Go maps guarded by one mutex) with
      its operations, each modelled as one atomic state transition that
      also returns the calls it makes to the outside world (goroutines it
      spawns, sockets and sessions it closes);
    - the forwarder loop that [AddSender] spawns for a publisher track;
    - [rebalanceReceivers], the reconciler;
    - the WHIP ingest and delete HTTP handlers.

    Go maps are [gmap]s, slices are lists, a [uuid.UUID] (16 bytes) is the
    number it encodes.  A Go run-time panic (index out of range, write to a
    nil map, nil pointer dereference) is [None]. *)

From stdpp Require Import gmap strings list fin_maps.

Set Warnings "-clear-no-such-hyp".

Open Scope string_scope.
Open Scope list_scope.

(** [uuid.UUID] is a [16]byte array; only equality on it is ever used. *)
Abbreviation UUID := N.

(** [map[string]bool] as the policies build it: every stored value is [true]. *)
Abbreviation TrackSet := (gmap string bool).

(** [map[uuid.UUID]map[string]bool], the assignment a policy returns. *)
Abbreviation Assignment := (gmap N TrackSet).

(** ** Distribution policies *)

Module Policy.

(** [type DistributionFunc func([]string, []uuid.UUID) map[uuid.UUID]map[string]bool];
    [None] stands for a panic inside the policy. *)
Definition DistributionFunc : Type :=
  list string → list UUID → option Assignment.

(** The inner loop of [AllDist]: [sendersMap[sender] = true] for each sender. *)
Definition sendersMap (senders : list string) : TrackSet :=
  foldl (λ m sender, <[sender := true]> m) ∅ senders.

Definition AllDist (senders : list string) (receivers : list UUID) : Assignment :=
  foldl (λ outputMap receiver, <[receiver := sendersMap senders]> outputMap)
        ∅ receivers.

(** The first loop of [RRDist]: [outputMap[receiver] = make(map[string]bool)]. *)
Definition rr_init (receivers : list UUID) (outputMap : Assignment) : Assignment :=
  foldl (λ o receiver, <[receiver := ∅]> o) outputMap receivers.

(** The second loop of [RRDist], [for i, sender := range senders], started at
    index [i].  [receivers[i%len(receivers)]] panics out of range and
    [outputMap[r][sender] = true] panics when [outputMap[r]] is the nil map. *)
Fixpoint rr_loop (receivers : list UUID) (i : nat) (senders : list string)
    (outputMap : Assignment) : option Assignment :=
  match senders with
  | [] => Some outputMap
  | sender :: rest =>
      r ← receivers !! (i mod length receivers);
      m ← outputMap !! r;
      rr_loop receivers (S i) rest (<[r := <[sender := true]> m]> outputMap)
  end.

Definition RRDist (senders : list string) (receivers : list UUID) : option Assignment :=
  let outputMap : Assignment := ∅ in
  if decide (length receivers = 0) then Some outputMap
  else rr_loop receivers 0 senders (rr_init receivers outputMap).

(** The two policies as values of the [DistributionFunc] type. *)
Definition AllDistF : DistributionFunc := λ senders receivers, Some (AllDist senders receivers).
Definition RRDistF : DistributionFunc := RRDist.

End Policy.

(** ** Values exchanged with the libraries *)

(** Go [error] values.  [Wrap] is an error that wraps another one
    ([fmt.Errorf("...: %w", err)]); [errors.Is] follows the chain. *)
Inductive error :=
  | ErrClosedPipe                       (* io.ErrClosedPipe *)
  | EOF                                 (* io.EOF *)
  | ErrOther (msg : string)
  | Wrap (msg : string) (inner : error).

Inductive target := IsClosedPipe.

(** [errors.Is(err, io.ErrClosedPipe)]. *)
Fixpoint errors_Is (err : error) (tgt : target) : bool :=
  match err, tgt with
  | ErrClosedPipe, IsClosedPipe => true
  | Wrap _ inner, _ => errors_Is inner tgt
  | _, _ => false
  end.

(** A Go pair [(value, err)] of which one side is meaningful. *)
Inductive Result (A : Type) :=
  | Ok (a : A)
  | Err (e : error).
Arguments Ok {A} a.
Arguments Err {A} e.

(** Pointers to library objects ([*webrtc.PeerConnection],
    [*websocket.Conn], [*webrtc.RTPSender]) are opaque handles. *)
Abbreviation ptr := nat.

Record RTPCodecCapability := {
  MimeType : string;
  ClockRate : N;
  Channels : N;
  SDPFmtpLine : string
}.

(** [*webrtc.TrackRemote]: what [AddSender] reads of it. *)
Record TrackRemote := {
  remote_ptr : ptr;
  remote_Codec : RTPCodecCapability;
  remote_ID : string;
  remote_StreamID : string
}.

(** [webrtc.TrackLocal]; [*webrtc.TrackLocalStaticRTP] is the only
    implementation the hub creates. *)
Record TrackLocal := {
  local_Codec : RTPCodecCapability;
  local_ID : string;
  local_StreamID : string
}.

(** The composite key [t.StreamID()+t.ID()] of the [senders] map. *)
Definition trackKey (t : TrackLocal) : string := local_StreamID t +:+ local_ID t.

(** [*webrtc.RTPSender]; [sender_Track] is [sender.Track()], [None] for nil. *)
Record RTPSender := {
  sender_ptr : ptr;
  sender_Track : option TrackLocal
}.

Inductive SDPType := SDPTypeOffer | SDPTypePranswer | SDPTypeAnswer | SDPTypeRollback.

Record SessionDescription := {
  sd_Type : SDPType;
  sd_SDP : string
}.

Inductive PeerConnectionState :=
  | PeerConnectionStateNew
  | PeerConnectionStateConnecting
  | PeerConnectionStateConnected
  | PeerConnectionStateDisconnected
  | PeerConnectionStateFailed
  | PeerConnectionStateClosed.

Inductive StatusCode := StatusNormalClosure | StatusGoingAway | StatusInternalError.
Inductive MessageType := MessageText | MessageBinary.

Record websocketMessage := {
  Event : string;
  Data : string
}.

Inductive Level := DebugLevel | InfoLevel | ErrorLevel.

(** Answers of the libraries the hub calls (pion/webrtc, encoding/json,
    google/uuid), as far as the code looks at them. *)
Record Lib := {
  NewTrackLocalStaticRTP : RTPCodecCapability → string → string → Result TrackLocal;
  ConnectionState : ptr → PeerConnectionState;
  GetSenders : ptr → list RTPSender;
  CreateOffer : ptr → Result SessionDescription;
  SetLocalDescription : ptr → SessionDescription → option error;
  PeerConn_Close : ptr → option error;
  json_Marshal_offer : SessionDescription → Result string;
  json_Marshal_message : websocketMessage → Result string;
  uuid_Parse : string → Result UUID;
  uuid_String : UUID → string
}.

(** Calls with an effect outside the registry, in program order. *)
Inductive Effect :=
  | Log (lvl : Level) (msg : string)            (* zap: Debugw / Errorw / Error *)
  | LogErr (lvl : Level) (e : error)
  | GoForwarder (t : TrackRemote) (trackLocal : TrackLocal)  (* go func() { ... }() *)
  | GoRebalance                                 (* go s.rebalanceReceivers() *)
  | SinkWrite (trackLocal : TrackLocal) (payload : list Byte.byte)
  | SocketClose (c : ptr) (code : StatusCode) (reason : string)
  | ConnClose (pc : ptr)
  | RemoveTrack (pc : ptr) (sender : RTPSender)
  | AddTrack (pc : ptr) (track : option TrackLocal)
  | OfferCreate (pc : ptr)
  | LocalDescriptionSet (pc : ptr) (offer : SessionDescription)
  | SocketWrite (c : ptr) (typ : MessageType) (payload : string)
  | OnTrack (pc : ptr).

(** Effects that start a goroutine. *)
Definition spawns (e : Effect) : bool :=
  match e with
  | GoForwarder _ _ | GoRebalance => true
  | _ => false
  end.

(** ** The registry *)

Record PeerSenderState := {
  ETag : string;
  PeerConn : ptr
}.

Record ReceiverState := {
  Connection : ptr;
  SignalSocket : ptr
}.

(** [type Broadcaster struct]; the mutex is not a field here: every method
    that takes it is one atomic transition. *)
Record Broadcaster := {
  peerSender : gmap UUID PeerSenderState;
  senders : gmap string TrackLocal;
  receivers : gmap UUID ReceiverState;
  distributionFunction : Policy.DistributionFunc
}.

Definition NewBroadcaster (distFunc : Policy.DistributionFunc) : Broadcaster :=
  {| distributionFunction := distFunc;
     senders := ∅;
     receivers := ∅;
     peerSender := ∅ |}.

Definition set_peerSender (f : gmap UUID PeerSenderState → gmap UUID PeerSenderState)
    (s : Broadcaster) : Broadcaster :=
  {| peerSender := f (peerSender s); senders := senders s;
     receivers := receivers s; distributionFunction := distributionFunction s |}.

Definition set_senders (f : gmap string TrackLocal → gmap string TrackLocal)
    (s : Broadcaster) : Broadcaster :=
  {| peerSender := peerSender s; senders := f (senders s);
     receivers := receivers s; distributionFunction := distributionFunction s |}.

Definition set_receivers (f : gmap UUID ReceiverState → gmap UUID ReceiverState)
    (s : Broadcaster) : Broadcaster :=
  {| peerSender := peerSender s; senders := senders s;
     receivers := f (receivers s); distributionFunction := distributionFunction s |}.

(** [id] is the value [uuid.New()] draws. *)
Definition AddPeerSender (s : Broadcaster) (peer : PeerSenderState) (id : UUID)
  : Broadcaster * UUID :=
  (set_peerSender <[id := peer]> s, id).

Definition DeletePeerSender (s : Broadcaster) (id : UUID) : Broadcaster :=
  set_receivers (delete id) s.

Definition GetPeerSender (s : Broadcaster) (id : UUID) : option PeerSenderState :=
  peerSender s !! id.

Definition AddSender (lib : Lib) (s : Broadcaster) (t : TrackRemote)
  : Broadcaster * option TrackLocal * list Effect :=
  match NewTrackLocalStaticRTP lib (remote_Codec t) (remote_ID t) (remote_StreamID t) with
  | Err _ =>
      (s, None, [Log ErrorLevel "Unable to create local track"])
  | Ok trackLocal =>
      (set_senders <[trackKey trackLocal := trackLocal]> s,
       Some trackLocal,
       [Log DebugLevel "Add new track"; GoForwarder t trackLocal; GoRebalance])
  end.

Definition AddReceiver (s : Broadcaster) (receiver : ReceiverState) (id : UUID)
  : Broadcaster * UUID * list Effect :=
  (set_receivers <[id := receiver]> s, id, [GoRebalance]).

Definition RemoveSender (s : Broadcaster) (t : TrackLocal) : Broadcaster * list Effect :=
  match senders s !! trackKey t with
  | None => (s, [Log DebugLevel "Removing Track"])
  | Some _ =>
      (set_senders (delete (trackKey t)) s, [Log DebugLevel "Removing Track"; GoRebalance])
  end.

Definition RemoveReceiver (s : Broadcaster) (id : UUID) : Broadcaster * list Effect :=
  match receivers s !! id with
  | None => (s, [])
  | Some receiver =>
      (set_receivers (delete id) s,
       [SocketClose (SignalSocket receiver) StatusNormalClosure "Ending operation";
        ConnClose (Connection receiver);
        GoRebalance])
  end.

(** ** The forwarder goroutine of [AddSender] *)

(** What one turn of the [for] loop meets: [t.Read(buf)] fails, or it
    returns [payload = buf[:i]] and [trackLocal.Write] returns [werr]. *)
Inductive IterIO :=
  | ReadFails (err : error)
  | ReadThenWrite (payload : list Byte.byte) (werr : option error).

Inductive LoopStatus := Running | Returned.

(** One turn of the loop, run against the registry as it is at that moment. *)
Definition forwarder_iter (s : Broadcaster) (trackLocal : TrackLocal) (io : IterIO)
  : LoopStatus * Broadcaster * list Effect :=
  match io with
  | ReadFails _ =>
      let '(s', eff) := RemoveSender s trackLocal in (Returned, s', eff)
  | ReadThenWrite payload werr =>
      match werr with
      | Some err =>
          if negb (errors_Is err IsClosedPipe)
          then (Returned, s, [SinkWrite trackLocal payload])
          else (Running, s, [SinkWrite trackLocal payload])
      | None => (Running, s, [SinkWrite trackLocal payload])
      end
  end.

(** The loop over a finite prefix of what the network delivers; [Running]
    means the goroutine is still in the loop after the prefix. *)
Fixpoint forwarder (s : Broadcaster) (trackLocal : TrackLocal) (script : list IterIO)
  : LoopStatus * Broadcaster * list Effect :=
  match script with
  | [] => (Running, s, [])
  | io :: rest =>
      match forwarder_iter s trackLocal io with
      | (Returned, s', eff) => (Returned, s', eff)
      | (Running, s', eff) =>
          let '(st, s'', eff') := forwarder s' trackLocal rest in
          (st, s'', eff ++ eff')
      end
  end.

(** ** Rebalance *)

(** Go leaves the order of [range] over a map unspecified.  Each [range]
    statement of [rebalanceReceivers] gets its own enumeration. *)
Record Ranges := {
  range_prune : gmap UUID ReceiverState → list UUID;
  range_receivers : gmap UUID ReceiverState → list UUID;
  range_senders : gmap string TrackLocal → list string;
  range_match : Assignment → list UUID;
  range_targets : TrackSet → list string
}.

Definition keys {K A} `{Countable K} (m : gmap K A) : list K := (map_to_list m).*1.

(** An enumeration is admissible when it lists every key once. *)
Record ranges_ok (rg : Ranges) : Prop := {
  range_prune_ok : ∀ m, range_prune rg m ≡ₚ keys m;
  range_receivers_ok : ∀ m, range_receivers rg m ≡ₚ keys m;
  range_senders_ok : ∀ m, range_senders rg m ≡ₚ keys m;
  range_match_ok : ∀ m, range_match rg m ≡ₚ keys m;
  range_targets_ok : ∀ m, range_targets rg m ≡ₚ keys m
}.

(** One admissible choice. *)
Definition key_order : Ranges :=
  {| range_prune := keys; range_receivers := keys; range_senders := keys;
     range_match := keys; range_targets := keys |}.

Definition prune_step (lib : Lib) (acc : Broadcaster * list Effect) (u : UUID)
  : Broadcaster * list Effect :=
  match receivers acc.1 !! u with
  | None => acc
  | Some rs =>
      match ConnectionState lib (Connection rs) with
      | PeerConnectionStateClosed =>
          (set_receivers (delete u) acc.1,
           acc.2 ++ [SocketClose (SignalSocket rs) StatusGoingAway "WebRTC connection closed"])
      | _ => acc
      end
  end.

Definition pruneClosedConnections (lib : Lib) (rg : Ranges) (s : Broadcaster)
  : Broadcaster * list Effect :=
  foldl (prune_step lib) (s, []) (range_prune rg (receivers s)).

(** [for _, sender := range receiver.Connection.GetSenders()]: collects
    [existingSenders] and detaches what the target set [v] does not hold. *)
Definition detach_step (pc : ptr) (v : TrackSet) (acc : TrackSet * list Effect)
    (sender : RTPSender) : TrackSet * list Effect :=
  match sender_Track sender with
  | None => acc
  | Some t =>
      (<[trackKey t := true]> acc.1,
       match v !! trackKey t with
       | Some _ => acc.2
       | None => acc.2 ++ [RemoveTrack pc sender]
       end)
  end.

Definition detach_loop (pc : ptr) (v : TrackSet) (l : list RTPSender)
  : TrackSet * list Effect :=
  foldl (detach_step pc v) (∅, []) l.

(** [for trackID := range v]: attaches what is not attached yet. *)
Definition attach_loop (s : Broadcaster) (pc : ptr) (existingSenders : TrackSet)
    (order : list string) : list Effect :=
  flat_map (λ trackID,
    match existingSenders !! trackID with
    | Some _ => []
    | None => [AddTrack pc (senders s !! trackID)]
    end) order.

(** The composite keys of the tracks a session carries, nil tracks skipped. *)
Definition attached_keys (l : list RTPSender) : list string :=
  omap (λ sender, trackKey <$> sender_Track sender) l.

(** Calls that change which tracks a session carries. *)
Definition changes_tracks (e : Effect) : bool :=
  match e with
  | RemoveTrack _ _ | AddTrack _ _ => true
  | _ => false
  end.

(** From [CreateOffer] to the end of the loop body. *)
Definition send_offer (lib : Lib) (u : UUID) (receiver : ReceiverState) : list Effect :=
  OfferCreate (Connection receiver) ::
  match CreateOffer lib (Connection receiver) with
  | Err _ => [Log ErrorLevel "Unable to create offer"]
  | Ok offer =>
      LocalDescriptionSet (Connection receiver) offer ::
      match SetLocalDescription lib (Connection receiver) offer with
      | Some err => [LogErr ErrorLevel err]
      | None => []
      end ++
      Log DebugLevel "Sending offer" ::
      match json_Marshal_offer lib offer with
      | Err _ => [Log ErrorLevel "Unable to marshal offer to json"]
      | Ok offerString =>
          match json_Marshal_message lib {| Event := "offer"; Data := offerString |} with
          | Err _ => [Log ErrorLevel "Unable to marshal offer to json"]
          | Ok messageString =>
              [SocketWrite (SignalSocket receiver) MessageText messageString]
          end
      end
  end.

(** The body of [for u, v := range match].  [s.receivers[u]] of a missing
    [u] is the zero [ReceiverState], whose nil [Connection] is dereferenced
    by [GetSenders]. *)
Definition reconcile (lib : Lib) (rg : Ranges) (s : Broadcaster) (u : UUID) (v : TrackSet)
  : option (list Effect) :=
  receiver ← receivers s !! u;
  let pc := Connection receiver in
  let existing_detach := detach_loop pc v (GetSenders lib pc) in
  Some (existing_detach.2
        ++ attach_loop s pc existing_detach.1 (range_targets rg v)
        ++ send_offer lib u receiver).

Definition rebalanceReceivers (lib : Lib) (rg : Ranges) (s : Broadcaster)
  : option (Broadcaster * list Effect) :=
  let pruned := pruneClosedConnections lib rg s in
  let s1 := pruned.1 in
  let receiverIDs := range_receivers rg (receivers s1) in
  let senderKeys := range_senders rg (senders s1) in
  mtch ← distributionFunction s1 senderKeys receiverIDs;
  effs ← mapM (λ u, v ← mtch !! u; reconcile lib rg s1 u v) (range_match rg mtch);
  Some (s1, pruned.2 ++ concat effs).

(** ** HTTP handlers of [whip.go] *)

Definition StatusOK : nat := 200.
Definition StatusCreated : nat := 201.
Definition StatusNotFound : nat := 404.
Definition StatusNotAcceptable : nat := 406.
Definition StatusInternalServerError : nat := 500.

(** An [http.ResponseWriter]: header lines under their canonical names, the
    status line once it is written, and the body written so far. *)
Record ResponseWriter := {
  resp_Header : list (string * string);
  resp_status : option nat;
  resp_body : string
}.

Definition emptyResponse : ResponseWriter :=
  {| resp_Header := []; resp_status := None; resp_body := EmptyString |}.

Definition Header_Del (k : string) (w : ResponseWriter) : ResponseWriter :=
  {| resp_Header := filter (λ kv, kv.1 ≠ k) (resp_Header w);
     resp_status := resp_status w; resp_body := resp_body w |}.

Definition Header_Add (k v : string) (w : ResponseWriter) : ResponseWriter :=
  {| resp_Header := resp_Header w ++ [(k, v)];
     resp_status := resp_status w; resp_body := resp_body w |}.

Definition Header_Set (k v : string) (w : ResponseWriter) : ResponseWriter :=
  Header_Add k v (Header_Del k w).

(** Only the first [WriteHeader] counts; headers set later are not sent. *)
Definition WriteHeader (code : nat) (w : ResponseWriter) : ResponseWriter :=
  match resp_status w with
  | Some _ => w
  | None => {| resp_Header := resp_Header w; resp_status := Some code;
               resp_body := resp_body w |}
  end.

Definition Write (data : string) (w : ResponseWriter) : ResponseWriter :=
  let w' := WriteHeader StatusOK w in
  {| resp_Header := resp_Header w'; resp_status := resp_status w';
     resp_body := resp_body w' +:+ data |}.

Definition newline : string := String (Ascii.ascii_of_nat 10) EmptyString.
Definition dquote : string := String (Ascii.ascii_of_nat 34) EmptyString.

(** [http.Error] of net/http. *)
Definition http_Error (w : ResponseWriter) (msg : string) (code : nat) : ResponseWriter :=
  Write (msg +:+ newline)
    (WriteHeader code
      (Header_Set "X-Content-Type-Options" "nosniff"
        (Header_Set "Content-Type" "text/plain; charset=utf-8"
          (Header_Del "Content-Length" w)))).

(** What the handlers read of an [*http.Request]. *)
Record Request := {
  req_content_type : string;          (* r.Header.Get("content-type") *)
  req_Body : Result string;           (* io.ReadAll(r.Body) *)
  req_peerID : string                 (* chi.URLParam(r, "peerID") *)
}.

(** Answers of the media-session library and of the uuid generator during
    one ingest request. *)
Record IngestEnv := {
  NewPeerConnection : Result ptr;
  AddTransceiverFromKind : option error;
  SetRemoteDescription : SessionDescription → option error;
  CreateAnswer : Result SessionDescription;
  SetLocalDescription_answer : SessionDescription → option error;
  LocalDescription : option SessionDescription;
  uuid_NewString : string;
  uuid_New : UUID
}.

(** The handler [whipHandler(b)] returns; [None] is a panic (an explicit
    [panic(err)] or the dereference of a nil [peer]).  The handlers are
    modelled as [main] installs them, behind [LogMiddleware], so the type
    assertion that fetches the request logger from the context succeeds. *)
Definition whipHandler (lib : Lib) (env : IngestEnv) (b : Broadcaster)
    (w : ResponseWriter) (r : Request)
  : option (Broadcaster * ResponseWriter * list Effect) :=
  if decide (req_content_type r ≠ "application/sdp") then
    Some (b, http_Error w "Unsupported content type" StatusNotAcceptable, [])
  else
    match req_Body r with
    | Err err => Some (b, w, [LogErr ErrorLevel err])
    | Ok boffer =>
        let offer := {| sd_Type := SDPTypeOffer; sd_SDP := boffer |} in
        match NewPeerConnection env with
        | Err _ => None
        | Ok peer =>
            let logged :=
              match AddTransceiverFromKind env with
              | Some err => [LogErr ErrorLevel err]
              | None => []
              end in
            match SetRemoteDescription env offer with
            | Some _ => None
            | None =>
                match CreateAnswer env with
                | Err _ => None
                | Ok answer =>
                    match SetLocalDescription_answer env answer with
                    | Some _ => None
                    | None =>
                        let senderState :=
                          {| PeerConn := peer; ETag := uuid_NewString env |} in
                        let added := AddPeerSender b senderState (uuid_New env) in
                        let peerID := added.2 in
                        let w1 := Header_Add "Content-Type" "application/sdp" w in
                        let w2 := Header_Add "Location" ("/whip/" +:+ uuid_String lib peerID) w1 in
                        let w3 := Header_Add "Etag" (dquote +:+ ETag senderState +:+ dquote) w2 in
                        let w4 := Header_Add "Accept-Patch" "application/trickle-ice-sdpfrag" w3 in
                        let w5 := WriteHeader StatusCreated w4 in
                        local ← LocalDescription env;
                        Some (added.1, Write (sd_SDP local) w5, logged ++ [OnTrack peer])
                    end
                end
            end
        end
    end.

Definition whipDeleteHandler (lib : Lib) (b : Broadcaster) (w : ResponseWriter) (r : Request)
  : Broadcaster * ResponseWriter * list Effect :=
  match uuid_Parse lib (req_peerID r) with
  | Err _ => (b, http_Error w "Not Found" StatusNotFound, [])
  | Ok peerID =>
      match GetPeerSender b peerID with
      | None => (b, http_Error w "Not Found" StatusNotFound, [])
      | Some peer =>
          match PeerConn_Close lib (PeerConn peer) with
          | Some _ =>
              (b, http_Error w "Error closing peer connection" StatusInternalServerError,
               [ConnClose (PeerConn peer); Log ErrorLevel "Unable to close peer connection"])
          | None =>
              (DeletePeerSender b peerID, WriteHeader StatusOK w, [ConnClose (PeerConn peer)])
          end
      end
  end.

(** ** Concrete registries and library answers used to run the model *)

Module Sample.

Definition vp8 : RTPCodecCapability :=
  {| MimeType := "video/VP8"; ClockRate := 90000; Channels := 0;
     SDPFmtpLine := EmptyString |}.

Definition remoteA : TrackRemote :=
  {| remote_ptr := 40; remote_Codec := vp8; remote_ID := "A"; remote_StreamID := "cam" |}.

Definition trackA : TrackLocal :=
  {| local_Codec := vp8; local_ID := "A"; local_StreamID := "cam" |}.

Definition trackB : TrackLocal :=
  {| local_Codec := vp8; local_ID := "B"; local_StreamID := "cam" |}.

Definition offer_of (pc : ptr) : SessionDescription :=
  {| sd_Type := SDPTypeOffer; sd_SDP := "v=0" |}.

(** A library in which every call succeeds; [attached] is what
    [GetSenders] reports per connection. *)
Definition lib (attached : ptr → list RTPSender) : Lib :=
  {| NewTrackLocalStaticRTP := λ c id streamID,
       Ok {| local_Codec := c; local_ID := id; local_StreamID := streamID |};
     ConnectionState := λ _, PeerConnectionStateConnected;
     GetSenders := attached;
     CreateOffer := λ pc, Ok (offer_of pc);
     SetLocalDescription := λ _ _, None;
     PeerConn_Close := λ _, None;
     json_Marshal_offer := λ sd, Ok ("{sdp:" +:+ sd_SDP sd +:+ "}");
     json_Marshal_message := λ m, Ok ("{event:" +:+ Event m +:+ ",data:" +:+ Data m +:+ "}");
     uuid_Parse := λ str,
       if decide (str = "00000000-0000-0000-0000-000000000007") then Ok 7%N
       else Err (ErrOther "invalid UUID format");
     uuid_String := λ _, "00000000-0000-0000-0000-000000000007" |}.

(** The same library, except that no local track can be created. *)
Definition no_local_track (l : Lib) : Lib :=
  {| NewTrackLocalStaticRTP := λ _ _ _, Err (ErrOther "codec not supported");
     ConnectionState := ConnectionState l;
     GetSenders := GetSenders l;
     CreateOffer := CreateOffer l;
     SetLocalDescription := SetLocalDescription l;
     PeerConn_Close := PeerConn_Close l;
     json_Marshal_offer := json_Marshal_offer l;
     json_Marshal_message := json_Marshal_message l;
     uuid_Parse := uuid_Parse l;
     uuid_String := uuid_String l |}.


Definition publisher : PeerSenderState := {| ETag := "e-1"; PeerConn := 10 |}.
Definition subscriberX : ReceiverState := {| Connection := 20; SignalSocket := 21 |}.
Definition subscriberY : ReceiverState := {| Connection := 30; SignalSocket := 31 |}.

(** One publisher admitted under id 7, nothing else. *)
Definition one_publisher : Broadcaster :=
  (AddPeerSender (NewBroadcaster Policy.RRDistF) publisher 7%N).1.

(** Track [cam/A] registered, no subscriber. *)
Definition one_track : Broadcaster :=
  (AddSender (lib (λ _, [])) (NewBroadcaster Policy.RRDistF) remoteA).1.1.

(** Track [cam/A] and subscriber 1 (connection 20, socket 21). *)
Definition one_track_one_subscriber : Broadcaster :=
  (AddReceiver one_track subscriberX 1%N).1.1.

(** Connection 20 already carries [cam/A]. *)
Definition attachedA (pc : ptr) : list RTPSender :=
  if decide (pc = 20) then [{| sender_ptr := 50; sender_Track := Some trackA |}] else [].

Definition packet : list Byte.byte := [Byte.x80; Byte.x60].

Definition delete_request : Request :=
  {| req_content_type := EmptyString; req_Body := Ok EmptyString;
     req_peerID := "00000000-0000-0000-0000-000000000007" |}.

Definition text_request : Request :=
  {| req_content_type := "text/plain"; req_Body := Ok "hello"; req_peerID := EmptyString |}.

Definition ingest_env : IngestEnv :=
  {| NewPeerConnection := Ok 10;
     AddTransceiverFromKind := None;
     SetRemoteDescription := λ _, None;
     CreateAnswer := Ok {| sd_Type := SDPTypeAnswer; sd_SDP := "v=0" |};
     SetLocalDescription_answer := λ _, None;
     LocalDescription := Some {| sd_Type := SDPTypeAnswer; sd_SDP := "v=0" |};
     uuid_NewString := "e-1";
     uuid_New := 7%N |}.

End Sample.

(** ** The subscriber signaling handler of [main.go] *)

(** Answers of the websocket and media-session libraries and of the uuid
    generator while one subscriber is admitted. *)
Record SignalEnv := {
  ws_Accept : Result ptr;               (* websocket.Accept(w, r, ...) *)
  ws_NewPeerConnection : Result ptr;    (* webrtc.NewPeerConnection(...) *)
  ws_CreateDataChannel : Result ptr;    (* peerConnection.CreateDataChannel("ping", nil) *)
  ws_uuid_New : UUID                    (* the id [AddReceiver] draws *)
}.

(** What [AddICECandidate] or [SetRemoteDescription] returns: nil, the
    sentinel [webrtc.ErrSessionDescriptionMissingIceUfrag], or another
    error. *)
Inductive ApplyResult := ApplyOk | ApplyMissingIceUfrag | ApplyErr (e : error).

Definition ErrSessionDescriptionMissingIceUfrag : error :=
  ErrOther "SetRemoteDescription called with no ice-ufrag".

Definition apply_error (a : ApplyResult) : option error :=
  match a with
  | ApplyOk => None
  | ApplyMissingIceUfrag => Some ErrSessionDescriptionMissingIceUfrag
  | ApplyErr e => Some e
  end.

(** What one turn of the read loop meets.  [SigReadFails]: [c.Read] fails,
    [going_away] tells whether [websocket.CloseStatus(err)] is
    [StatusGoingAway].  [SigBadFrame]: [json.Unmarshal(raw, &message)]
    fails.  [SigNullFrame]: the frame is the JSON value null, which sets the
    pointer [message] to nil.  [SigFrame]: [message.Event] and
    [message.Data] after unmarshalling, whether the payload in [Data]
    unmarshals, and what the session answers when it is applied. *)
Inductive SignalIO :=
  | SigReadFails (err : error) (going_away : bool)
  | SigBadFrame (err : error)
  | SigNullFrame
  | SigFrame (event data : string) (decode : option error) (apply : ApplyResult).

Inductive SignalEffect :=
  | Core (e : Effect)
  | GoPing (dc : option ptr)                     (* go func() { ticker ... dc.SendText("ping") } *)
  | OnICECandidate (pc : ptr)
  | OnConnectionStateChange (pc : ptr) (receiverID : UUID)
  | ICECandidateAdd (pc : ptr) (data : string)
  | RemoteDescriptionSet (pc : ptr) (data : string)
  | ChannelClose (dc : option ptr).

Inductive HandlerStatus := Serving | Finished | Panicked.

(** One turn of [for { ... }] in [webSocketHandler]. *)
Definition signal_iter (pc : ptr) (io : SignalIO) : HandlerStatus * list SignalEffect :=
  match io with
  | SigReadFails err going_away =>
      (Finished, if going_away then [] else [Core (LogErr ErrorLevel err)])
  | SigBadFrame err => (Finished, [Core (LogErr ErrorLevel err)])
  | SigNullFrame => (Panicked, [Core (Log DebugLevel "Received message")])
  | SigFrame event data decode apply =>
      let received := Core (Log DebugLevel "Received message") in
      if decide (event = "candidate") then
        match decode with
        | Some e => (Finished, [received; Core (LogErr ErrorLevel e)])
        | None =>
            match apply_error apply with
            | Some e =>
                (Finished, [received; ICECandidateAdd pc data; Core (LogErr ErrorLevel e)])
            | None => (Serving, [received; ICECandidateAdd pc data])
            end
        end
      else if decide (event = "answer") then
        match decode with
        | Some e => (Finished, [received; Core (LogErr ErrorLevel e)])
        | None =>
            match apply with
            | ApplyErr e =>
                (Finished,
                 [received; RemoteDescriptionSet pc data; Core (LogErr ErrorLevel e)])
            | _ => (Serving, [received; RemoteDescriptionSet pc data])
            end
        end
      else (Serving, [received])
  end.

(** The read loop over a finite prefix of what the client sends. *)
Fixpoint signalLoop (pc : ptr) (script : list SignalIO)
  : HandlerStatus * list SignalEffect :=
  match script with
  | [] => (Serving, [])
  | io :: rest =>
      match signal_iter pc io with
      | (Serving, eff) =>
          let r := signalLoop pc rest in (r.1, eff ++ r.2)
      | stopped => stopped
      end
  end.

(** [webSocketHandler(b)] serving one client.  The deferred calls run when
    the loop is left, last deferred first; [dc.Close()] on the nil channel
    of a failed [CreateDataChannel] panics, after which the remaining
    deferred calls still run. *)
Definition webSocketHandler (env : SignalEnv) (b : Broadcaster) (script : list SignalIO)
  : Broadcaster * HandlerStatus * list SignalEffect :=
  match ws_Accept env with
  | Err _ => (b, Finished, [Core (Log ErrorLevel "Failed to upgrade")])
  | Ok c =>
      let close_socket := Core (SocketClose c StatusInternalError "the sky is falling") in
      match ws_NewPeerConnection env with
      | Err _ =>
          (b, Finished, [Core (Log ErrorLevel "Failed to create PeerConnection"); close_socket])
      | Ok peerConnection =>
          let state := {| Connection := peerConnection; SignalSocket := c |} in
          let dc := match ws_CreateDataChannel env with Ok d => Some d | Err _ => None end in
          let dc_log :=
            match ws_CreateDataChannel env with
            | Ok _ => []
            | Err e => [Core (LogErr ErrorLevel e)]
            end in
          let added := AddReceiver b state (ws_uuid_New env) in
          let setup :=
            dc_log ++ [GoPing dc; OnICECandidate peerConnection]
            ++ (Core <$> added.2)
            ++ [OnConnectionStateChange peerConnection added.1.2] in
          let loop := signalLoop peerConnection script in
          match loop.1 with
          | Serving => (added.1.1, Serving, setup ++ loop.2)
          | st =>
              (added.1.1,
               match dc with Some _ => st | None => Panicked end,
               setup ++ loop.2
               ++ [ChannelClose dc; Core (ConnClose peerConnection); close_socket])
          end
      end
  end.

(** The callback given to [peerConnection.OnConnectionStateChange]. *)
Definition onConnectionStateChange (lib : Lib) (b : Broadcaster) (peerConnection : ptr)
    (receiverID : UUID) (p : PeerConnectionState) : Broadcaster * list Effect :=
  match p with
  | PeerConnectionStateFailed | PeerConnectionStateClosed =>
      let closing :=
        ConnClose peerConnection ::
        match PeerConn_Close lib peerConnection with
        | Some _ => [Log ErrorLevel "Unable to close connection"]
        | None => []
        end in
      let removed := RemoveReceiver b receiverID in
      (removed.1, closing ++ removed.2)
  | _ => (b, [])
  end.


(** Frames the read loop survives: an event that is neither a candidate
    nor an answer; a candidate that unmarshals and is accepted; an answer
    that unmarshals and is accepted or rejected only for the missing
    ice-ufrag. *)
Definition tolerated (io : SignalIO) : bool :=
  match io with
  | SigFrame event data decode apply =>
      if decide (event = "candidate") then
        match decode, apply with None, ApplyOk => true | _, _ => false end
      else if decide (event = "answer") then
        match decode, apply with
        | None, ApplyOk | None, ApplyMissingIceUfrag => true
        | _, _ => false
        end
      else true
  | _ => false
  end.

(** A write result that keeps the loop going: success, or an error that
    is [io.ErrClosedPipe]. *)
Definition keeps_going (werr : option error) : Prop :=
  match werr with
  | Some e => errors_Is e IsClosedPipe = true
  | None => True
  end.

(** [rs.Connection.ConnectionState() == webrtc.PeerConnectionStateClosed]. *)
Definition is_closed (lib : Lib) (rs : ReceiverState) : bool :=
  match ConnectionState lib (Connection rs) with
  | PeerConnectionStateClosed => true
  | _ => false
  end.

(** The number of offsets [t < n] whose index [i + t] falls on subscriber
    slot [j] when indices cycle over [S] slots. *)
Fixpoint hits (S i n j : nat) : nat :=
  match n with
  | 0 => 0
  | Datatypes.S n' => (if decide (i mod S = j) then 1 else 0) + hits S (Datatypes.S i) n' j
  end.

(** ** Further concrete inputs *)

Module More.

(** A remote track whose stream id and track id differ from those of
    [Sample.remoteA] but concatenate to the same key. *)
Definition remoteA' : TrackRemote :=
  {| remote_ptr := 41; remote_Codec := Sample.vp8; remote_ID := "mA";
     remote_StreamID := "ca" |}.

Definition trackA' : TrackLocal :=
  {| local_Codec := Sample.vp8; local_ID := "mA"; local_StreamID := "ca" |}.

(** A library in which the session behind connection 30 is closed. *)
Definition lib_closed_30 : Lib :=
  {| NewTrackLocalStaticRTP := NewTrackLocalStaticRTP (Sample.lib (λ _, []));
     ConnectionState := λ pc,
       if decide (pc = 30) then PeerConnectionStateClosed
       else PeerConnectionStateConnected;
     GetSenders := λ _, [];
     CreateOffer := CreateOffer (Sample.lib (λ _, []));
     SetLocalDescription := SetLocalDescription (Sample.lib (λ _, []));
     PeerConn_Close := PeerConn_Close (Sample.lib (λ _, []));
     json_Marshal_offer := json_Marshal_offer (Sample.lib (λ _, []));
     json_Marshal_message := json_Marshal_message (Sample.lib (λ _, []));
     uuid_Parse := uuid_Parse (Sample.lib (λ _, []));
     uuid_String := uuid_String (Sample.lib (λ _, [])) |}.

(** A library in which no session can be closed. *)
Definition lib_no_close : Lib :=
  {| NewTrackLocalStaticRTP := NewTrackLocalStaticRTP (Sample.lib (λ _, []));
     ConnectionState := ConnectionState (Sample.lib (λ _, []));
     GetSenders := λ _, [];
     CreateOffer := CreateOffer (Sample.lib (λ _, []));
     SetLocalDescription := SetLocalDescription (Sample.lib (λ _, []));
     PeerConn_Close := λ _, Some (ErrOther "close failed");
     json_Marshal_offer := json_Marshal_offer (Sample.lib (λ _, []));
     json_Marshal_message := json_Marshal_message (Sample.lib (λ _, []));
     uuid_Parse := uuid_Parse (Sample.lib (λ _, []));
     uuid_String := uuid_String (Sample.lib (λ _, [])) |}.


Definition signal_env_no_session : SignalEnv :=
  {| ws_Accept := Ok 21; ws_NewPeerConnection := Err (ErrOther "no session");
     ws_CreateDataChannel := Ok 22; ws_uuid_New := 1%N |}.

(** Track [cam/A], subscriber 1 (connection 20) and subscriber 2
    (connection 30). *)
Definition two_subscribers : Broadcaster :=
  (AddReceiver Sample.one_track_one_subscriber Sample.subscriberY 2%N).1.1.

End More.

(** * Properties *)

(** ** Registry operations *)

Section Registry.

Implicit Types (s : Broadcaster) (id : UUID) (t : TrackLocal).

Lemma DeletePeerSender_peerSender s id :
  peerSender (DeletePeerSender s id) = peerSender s.
Proof. reflexivity. Qed.

Lemma DeletePeerSender_receivers s id :
  receivers (DeletePeerSender s id) = delete id (receivers s).
Proof. reflexivity. Qed.

(** C1 (the code deviates): at the registry holding the single publisher 7,
    [DeletePeerSender 7] leaves publisher 7 registered, and the delete
    handler answers 200 OK while the publisher record survives.  The record
    is never deleted because the method deletes from [receivers]. *)
Theorem DeletePeerSender_leaves_publisher :
  GetPeerSender (DeletePeerSender Sample.one_publisher 7%N) 7%N = Some Sample.publisher
  ∧ (let r := whipDeleteHandler (Sample.lib (λ _, [])) Sample.one_publisher
                emptyResponse Sample.delete_request in
     resp_status r.1.2 = Some StatusOK
     ∧ GetPeerSender r.1.1 7%N = Some Sample.publisher).
Proof. cbv zeta. repeat split; reflexivity. Qed.

Lemma RemoveSender_absent s t :
  senders s !! trackKey t = None →
  RemoveSender s t = (s, [Log DebugLevel "Removing Track"]).
Proof. unfold RemoveSender. by intros ->. Qed.

Lemma RemoveSender_present s t :
  is_Some (senders s !! trackKey t) →
  RemoveSender s t
  = (set_senders (delete (trackKey t)) s, [Log DebugLevel "Removing Track"; GoRebalance]).
Proof. unfold RemoveSender. by intros [x ->]. Qed.

(** C5: [RemoveSender] of a track whose composite key is not registered
    changes none of the three maps and spawns no rebalance; for a registered
    key the entry is deleted (the other two maps are untouched) and a
    rebalance is spawned. *)
Theorem RemoveSender_absent_or_present s t :
  (senders s !! trackKey t = None →
     (RemoveSender s t).1 = s ∧ GoRebalance ∉ (RemoveSender s t).2)
  ∧ (is_Some (senders s !! trackKey t) →
     senders (RemoveSender s t).1 = delete (trackKey t) (senders s)
     ∧ senders (RemoveSender s t).1 !! trackKey t = None
     ∧ peerSender (RemoveSender s t).1 = peerSender s
     ∧ receivers (RemoveSender s t).1 = receivers s
     ∧ GoRebalance ∈ (RemoveSender s t).2).
Proof.
  split.
  - intros Habsent. rewrite (RemoveSender_absent s t Habsent). split; [done|].
    cbn. rewrite list_elem_of_singleton. discriminate.
  - intros Hpresent. rewrite (RemoveSender_present s t Hpresent). cbn.
    repeat split; try done.
    + apply lookup_delete_eq.
    + apply list_elem_of_further, list_elem_of_here.
Qed.

Example RemoveSender_present_runs :
  senders (RemoveSender Sample.one_track Sample.trackA).1 = ∅
  ∧ (RemoveSender Sample.one_track Sample.trackA).2
    = [Log DebugLevel "Removing Track"; GoRebalance].
Proof. split; reflexivity. Qed.

Example RemoveSender_absent_runs :
  RemoveSender Sample.one_track Sample.trackB
  = (Sample.one_track, [Log DebugLevel "Removing Track"]).
Proof. reflexivity. Qed.

(** C10: [RemoveReceiver] of an id that is not in [receivers] returns at
    once: nothing is closed, the registry is the same, no rebalance. *)
Theorem RemoveReceiver_absent s id :
  receivers s !! id = None →
  (RemoveReceiver s id).1 = s ∧ (RemoveReceiver s id).2 = [].
Proof. unfold RemoveReceiver. intros ->. done. Qed.

Lemma RemoveReceiver_absent_witness :
  receivers Sample.one_track !! 9%N = None
  ∧ (RemoveReceiver Sample.one_track 9%N).1 = Sample.one_track
  ∧ (RemoveReceiver Sample.one_track 9%N).2 = [].
Proof.
  split; [reflexivity|].
  apply (RemoveReceiver_absent Sample.one_track 9%N). reflexivity.
Defined.

End Registry.

(** ** [AddSender] and its forwarder *)

Section Forwarder.

Implicit Types (s : Broadcaster) (tl : TrackLocal) (io : IterIO).

(** C9: when [webrtc.NewTrackLocalStaticRTP] fails, [AddSender] returns nil,
    leaves the registry as it was and starts neither the forwarder nor a
    rebalance. *)
Theorem AddSender_track_creation_fails lib s (t : TrackRemote) e :
  NewTrackLocalStaticRTP lib (remote_Codec t) (remote_ID t) (remote_StreamID t) = Err e →
  (AddSender lib s t).1.2 = None
  ∧ (AddSender lib s t).1.1 = s
  ∧ Forall (λ eff, spawns eff = false) (AddSender lib s t).2.
Proof.
  unfold AddSender. intros ->. cbn. repeat split. by repeat constructor.
Qed.

Lemma AddSender_track_creation_fails_witness :
  let lib := Sample.no_local_track (Sample.lib (λ _, [])) in
  (AddSender lib Sample.one_publisher Sample.remoteA).1.2 = None
  ∧ (AddSender lib Sample.one_publisher Sample.remoteA).1.1 = Sample.one_publisher
  ∧ Forall (λ eff, spawns eff = false)
           (AddSender lib Sample.one_publisher Sample.remoteA).2.
Proof.
  exact (AddSender_track_creation_fails
           (Sample.no_local_track (Sample.lib (λ _, [])))
           Sample.one_publisher Sample.remoteA
           (ErrOther "codec not supported") eq_refl).
Defined.

Lemma AddSender_ok lib s (t : TrackRemote) trackLocal :
  NewTrackLocalStaticRTP lib (remote_Codec t) (remote_ID t) (remote_StreamID t) = Ok trackLocal →
  AddSender lib s t
  = (set_senders <[trackKey trackLocal := trackLocal]> s, Some trackLocal,
     [Log DebugLevel "Add new track"; GoForwarder t trackLocal; GoRebalance]).
Proof. unfold AddSender. by intros ->. Qed.

(** Against C3 as stated: a write error that is [io.ErrClosedPipe] does not
    end the loop; after it the forwarder still forwards the next packet. *)
Lemma forwarder_survives_closed_pipe :
  (forwarder_iter Sample.one_track Sample.trackA
     (ReadThenWrite Sample.packet (Some ErrClosedPipe))).1.1 ≠ Returned
  ∧ forwarder Sample.one_track Sample.trackA
      [ReadThenWrite Sample.packet (Some ErrClosedPipe);
       ReadThenWrite Sample.packet None]
    = (Running, Sample.one_track,
       [SinkWrite Sample.trackA Sample.packet; SinkWrite Sample.trackA Sample.packet]).
Proof. split; [discriminate | reflexivity]. Qed.

(** C3 (amended): a failed write to the sink never changes the registry and
    has no effect besides the attempted write (nothing is logged, the track
    is not removed, no subscriber is touched).  If the error is
    [io.ErrClosedPipe] the forwarder stays in its loop and goes on to the
    next read; on any other write error it returns. *)
Theorem forwarder_write_error s tl payload err :
  let r := forwarder_iter s tl (ReadThenWrite payload (Some err)) in
  r.1.2 = s
  ∧ r.2 = [SinkWrite tl payload]
  ∧ (errors_Is err IsClosedPipe = true → r.1.1 = Running)
  ∧ (errors_Is err IsClosedPipe = false → r.1.1 = Returned).
Proof.
  cbn. destruct (errors_Is err IsClosedPipe); cbn; repeat split; congruence.
Qed.





Example forwarder_eof_runs :
  forwarder Sample.one_track Sample.trackA
    [ReadThenWrite Sample.packet None; ReadFails EOF; ReadThenWrite Sample.packet None]
  = (Returned, NewBroadcaster Policy.RRDistF,
     [SinkWrite Sample.trackA Sample.packet; Log DebugLevel "Removing Track"; GoRebalance]).
Proof. reflexivity. Qed.

End Forwarder.

(** ** Publisher ingest *)

Section Ingest.

Lemma http_Error_status w msg code :
  resp_status w = None → resp_status (http_Error w msg code) = Some code.
Proof.
  unfold http_Error, Write, WriteHeader, Header_Set, Header_Add, Header_Del. cbn.
  by intros ->.
Qed.

Lemma http_Error_body w msg code :
  resp_body (http_Error w msg code) = resp_body w +:+ (msg +:+ newline).
Proof.
  unfold http_Error, Write, WriteHeader, Header_Set, Header_Add, Header_Del. cbn.
  destruct (resp_status w); reflexivity.
Qed.

(** C8: an ingest request whose Content-Type is not [application/sdp] is
    answered 406 Not Acceptable; the handler returns before it creates a
    session or reaches [AddPeerSender], so the registry is the one it was
    given and no call to the outside is made. *)
Theorem whipHandler_bad_content_type lib env b w r :
  req_content_type r ≠ "application/sdp" →
  resp_status w = None →
  ∃ w', whipHandler lib env b w r = Some (b, w', [])
        ∧ resp_status w' = Some StatusNotAcceptable
        ∧ resp_body w' = resp_body w +:+ ("Unsupported content type" +:+ newline).
Proof.
  intros Hct Hw. unfold whipHandler. rewrite decide_True by done.
  eexists. split; [reflexivity|]. split.
  - by apply http_Error_status.
  - apply http_Error_body.
Qed.

Lemma whipHandler_bad_content_type_witness :
  ∃ w', whipHandler (Sample.lib (λ _, [])) Sample.ingest_env
          (NewBroadcaster Policy.RRDistF) emptyResponse Sample.text_request
        = Some (NewBroadcaster Policy.RRDistF, w', [])
        ∧ resp_status w' = Some StatusNotAcceptable
        ∧ resp_body w' = resp_body emptyResponse +:+ ("Unsupported content type" +:+ newline).
Proof.
  apply (whipHandler_bad_content_type (Sample.lib (λ _, [])) Sample.ingest_env
           (NewBroadcaster Policy.RRDistF) emptyResponse Sample.text_request).
  - discriminate.
  - reflexivity.
Defined.

(** With the right Content-Type and a cooperative library the same handler
    does admit the publisher. *)
Example whipHandler_admits :
  ∃ b' w' eff,
    whipHandler (Sample.lib (λ _, [])) Sample.ingest_env (NewBroadcaster Policy.RRDistF)
      emptyResponse
      {| req_content_type := "application/sdp"; req_Body := Ok "v=0";
         req_peerID := EmptyString |}
    = Some (b', w', eff)
    ∧ GetPeerSender b' 7%N = Some Sample.publisher
    ∧ resp_status w' = Some StatusCreated.
Proof. do 3 eexists. split; [reflexivity|]. split; reflexivity. Qed.

End Ingest.

(** ** Distribution policies *)

Section Policies.

Import Policy.

(** Both policies fill a map by inserting one constant per key of a list. *)
Lemma foldl_insert_lookup {K V} `{!EqDecision K, !Countable K}
    (c : V) (l : list K) (m : gmap K V) (k : K) :
  foldl (λ acc x, <[x := c]> acc) m l !! k = if decide (k ∈ l) then Some c else m !! k.
Proof.
  revert m. induction l as [|a l IH]; intros m; cbn.
  - rewrite decide_False; [done | apply not_elem_of_nil].
  - rewrite IH. destruct (decide (k ∈ l)) as [Hin|Hnin].
    + rewrite decide_True; [done | by apply list_elem_of_further].
    + destruct (decide (k = a)) as [->|Hne].
      * rewrite lookup_insert_eq, decide_True; [done | apply list_elem_of_here].
      * rewrite lookup_insert_ne by done. rewrite decide_False; [done|].
        rewrite elem_of_cons. naive_solver.
Qed.

Lemma foldl_insert_dom {K V} `{!EqDecision K, !Countable K}
    (c : V) (l : list K) (m : gmap K V) :
  dom (foldl (λ acc x, <[x := c]> acc) m l) = list_to_set l ∪ dom m.
Proof.
  apply set_eq. intros k.
  rewrite elem_of_dom, foldl_insert_lookup, elem_of_union, elem_of_list_to_set, elem_of_dom.
  destruct (decide (k ∈ l)); naive_solver.
Qed.

Lemma sendersMap_lookup senders k :
  sendersMap senders !! k = if decide (k ∈ senders) then Some true else None.
Proof. unfold sendersMap. by rewrite foldl_insert_lookup, lookup_empty. Qed.

Lemma sendersMap_dom senders : dom (sendersMap senders) = list_to_set senders.
Proof. unfold sendersMap. rewrite foldl_insert_dom, dom_empty_L. set_solver. Qed.

Lemma AllDist_lookup senders receivers u :
  AllDist senders receivers !! u
  = if decide (u ∈ receivers) then Some (sendersMap senders) else None.
Proof. unfold AllDist. by rewrite foldl_insert_lookup, lookup_empty. Qed.

Lemma AllDist_dom senders receivers :
  dom (AllDist senders receivers) = list_to_set receivers.
Proof. unfold AllDist. rewrite foldl_insert_dom, dom_empty_L. set_solver. Qed.

(** C7: [AllDist] is defined on all inputs; its result has an entry exactly
    for the subscriber ids of the input, and each entry is the set of all
    track keys of the input (every key of the list is present with value
    [true], and nothing else is).  Being a function of the two lists it is
    deterministic. *)
Theorem AllDist_every_subscriber_gets_every_track senders receivers :
  dom (AllDist senders receivers) = list_to_set receivers
  ∧ (∀ u, u ∈ receivers →
       ∃ v, AllDist senders receivers !! u = Some v
            ∧ dom v = list_to_set senders
            ∧ (∀ k, k ∈ senders → v !! k = Some true)
            ∧ (∀ k, k ∉ senders → v !! k = None)).
Proof.
  split; [apply AllDist_dom|].
  intros u Hu. exists (sendersMap senders).
  rewrite AllDist_lookup, decide_True by done.
  split; [done|]. split; [apply sendersMap_dom|].
  split; intros k Hk; rewrite sendersMap_lookup.
  - by rewrite decide_True.
  - by rewrite decide_False.
Qed.

(** The orderings of the input do not matter to [AllDist]. *)
Lemma AllDist_perm senders senders' receivers receivers' :
  senders ≡ₚ senders' → receivers ≡ₚ receivers' →
  AllDist senders receivers = AllDist senders' receivers'.
Proof.
  intros Hs Hr. apply map_eq. intros u. rewrite !AllDist_lookup.
  assert (sendersMap senders = sendersMap senders') as ->.
  { apply map_eq. intros k. rewrite !sendersMap_lookup.
    destruct (decide (k ∈ senders)) as [Hin|Hnin].
    - rewrite decide_True; [done | by rewrite <- Hs].
    - rewrite decide_False; [done | by rewrite <- Hs]. }
  destruct (decide (u ∈ receivers)) as [Hin|Hnin].
  - rewrite decide_True; [done | by rewrite <- Hr].
  - rewrite decide_False; [done | by rewrite <- Hr].
Qed.

(** Scenario S2 of the specification. *)
Example AllDist_two_by_two :
  AllDist ["A"; "B"] [1%N; 2%N]
  = {[ 1%N := {[ "A" := true; "B" := true ]}; 2%N := {[ "A" := true; "B" := true ]} ]}.
Proof. vm_compute. reflexivity. Qed.

(** *** Round-robin *)

Lemma rr_init_lookup receivers (o : gmap N (gmap string bool)) u :
  rr_init receivers o !! u = if decide (u ∈ receivers) then Some ∅ else o !! u.
Proof. unfold rr_init. apply foldl_insert_lookup. Qed.

Lemma mod_index_in_range (receivers : list N) i :
  receivers ≠ [] → is_Some (receivers !! (i mod length receivers)).
Proof.
  intros Hne. apply lookup_lt_is_Some.
  apply Nat.mod_upper_bound. by destruct receivers.
Qed.

(** The invariant of the second loop of [RRDist]: the loop does not panic
    when every subscriber has an entry; it keeps the domain, only ever adds
    keys with value [true], and adds the track at offset [j] to the entry of
    the subscriber at index [(i + j) mod S]. *)
Lemma rr_loop_spec receivers senders : ∀ i (o : gmap N (gmap string bool)),
  receivers ≠ [] →
  (∀ r, r ∈ receivers → is_Some (o !! r)) →
  ∃ out, rr_loop receivers i senders o = Some out
    ∧ dom out = dom o
    ∧ (∀ r m, o !! r = Some m →
         ∃ m', out !! r = Some m'
               ∧ (∀ k, m !! k = Some true → m' !! k = Some true)
               ∧ (∀ k b, m' !! k = Some b →
                    m !! k = Some b
                    ∨ (b = true ∧ ∃ j, senders !! j = Some k
                         ∧ receivers !! ((i + j) mod length receivers) = Some r)))
    ∧ (∀ j k r, senders !! j = Some k →
         receivers !! ((i + j) mod length receivers) = Some r →
         ∃ m', out !! r = Some m' ∧ m' !! k = Some true).
Proof.
  induction senders as [|sender rest IH]; intros i o Hne Hall; cbn.
  - exists o. split; [done|]. split; [done|]. split.
    + intros r m Hr. exists m. split; [done|]. split; [done|]. eauto.
    + intros j k r Hj. by rewrite lookup_nil in Hj.
  - destruct (mod_index_in_range receivers i Hne) as [r0 Hr0].
    rewrite Hr0. cbn.
    destruct (Hall r0) as [m0 Hm0]; [by eapply list_elem_of_lookup_2|].
    rewrite Hm0. cbn.
    set (o' := <[r0 := <[sender := true]> m0]> o).
    destruct (IH (S i) o' Hne) as (out & Hout & Hdom & Hframe & Hassign).
    { intros r Hr. unfold o'. destruct (decide (r = r0)) as [->|Hd].
      - rewrite lookup_insert_eq. eauto.
      - rewrite lookup_insert_ne by done. by apply Hall. }
    exists out. split; [done|]. split.
    { rewrite Hdom. unfold o'. rewrite dom_insert_L.
      assert (r0 ∈ dom o) by (apply elem_of_dom; eauto). set_solver. }
    split.
    + intros r m Hr. destruct (decide (r = r0)) as [->|Hd].
      * assert (m = m0) as -> by congruence.
        destruct (Hframe r0 (<[sender := true]> m0)) as (m' & Hm' & Hkeep & Hnew).
        { unfold o'. apply lookup_insert_eq. }
        exists m'. split; [done|]. split.
        -- intros k Hk. apply Hkeep. destruct (decide (k = sender)) as [->|Hk'].
           ++ apply lookup_insert_eq.
           ++ by rewrite lookup_insert_ne.
        -- intros k b Hb. destruct (Hnew k b Hb) as [Hold|(-> & j & Hj & Hjr)].
           ++ destruct (decide (k = sender)) as [->|Hk'].
              ** rewrite lookup_insert_eq in Hold. inversion Hold; subst b.
                 right. split; [done|]. exists 0. split; [done|].
                 by rewrite Nat.add_0_r.
              ** rewrite lookup_insert_ne in Hold by done. by left.
           ++ right. split; [done|]. exists (S j). split; [done|].
              by replace (i + S j) with (S i + j) by lia.
      * destruct (Hframe r m) as (m' & Hm' & Hkeep & Hnew).
        { unfold o'. by rewrite lookup_insert_ne. }
        exists m'. split; [done|]. split; [done|].
        intros k b Hb. destruct (Hnew k b Hb) as [Hold|(-> & j & Hj & Hjr)].
        -- by left.
        -- right. split; [done|]. exists (S j). split; [done|].
           by replace (i + S j) with (S i + j) by lia.
    + intros j k r Hj Hjr. destruct j as [|j].
      * cbn in Hj. inversion Hj; subst k. rewrite Nat.add_0_r in Hjr.
        assert (r = r0) as -> by congruence.
        destruct (Hframe r0 (<[sender := true]> m0)) as (m' & Hm' & Hkeep & _).
        { unfold o'. apply lookup_insert_eq. }
        exists m'. split; [done|]. apply Hkeep, lookup_insert_eq.
      * cbn in Hj. apply (Hassign j k r Hj).
        by replace (S i + j) with (i + S j) by lia.
Qed.

Lemma RRDist_dom senders receivers :
  ∃ out, RRDist senders receivers = Some out ∧ dom out = list_to_set receivers.
Proof.
  unfold RRDist. destruct (decide (length receivers = 0)) as [Hz|Hnz].
  - exists ∅. apply length_zero_iff_nil in Hz. subst receivers.
    split; [done|]. by rewrite dom_empty_L.
  - assert (Hne : receivers ≠ []) by (by intros ->).
    destruct (rr_loop_spec receivers senders 0 (rr_init receivers ∅) Hne)
      as (out & Hout & Hdom & _).
    { intros r Hr. rewrite rr_init_lookup, decide_True by done. eauto. }
    exists out. split; [done|].
    rewrite Hdom. unfold rr_init. rewrite foldl_insert_dom, dom_empty_L. set_solver.
Qed.

(** C2: [RRDist] returns (it never panics) a map whose domain is exactly
    the set of subscriber ids of the input; the track at index [i] is in the
    entry of the subscriber at index [i mod S], which exists whenever
    [S ≠ 0]; an entry holds nothing but the tracks so assigned (all with
    value [true]); with [S = 0] the map is empty; a subscriber to which no
    index is mapped has an entry, the empty set. *)
Theorem RRDist_round_robin senders receivers :
  ∃ out, RRDist senders receivers = Some out
    ∧ dom out = list_to_set receivers
    ∧ (length receivers = 0 → out = ∅)
    ∧ (∀ i k, senders !! i = Some k → length receivers ≠ 0 →
         ∃ r v, receivers !! (i mod length receivers) = Some r
                ∧ out !! r = Some v ∧ v !! k = Some true)
    ∧ (∀ r v k b, out !! r = Some v → v !! k = Some b →
         b = true ∧ ∃ i, senders !! i = Some k
                         ∧ receivers !! (i mod length receivers) = Some r)
    ∧ (∀ r, r ∈ receivers →
         (∀ i k, senders !! i = Some k →
                 receivers !! (i mod length receivers) ≠ Some r) →
         out !! r = Some ∅).
Proof.
  unfold RRDist. destruct (decide (length receivers = 0)) as [Hz|Hnz].
  - exists ∅. apply length_zero_iff_nil in Hz. subst receivers.
    split; [done|]. split; [by rewrite dom_empty_L|]. split; [done|].
    split; [by intros ? ? _ ?|]. split.
    + intros r v k b Hr. by rewrite lookup_empty in Hr.
    + intros r Hr. by apply not_elem_of_nil in Hr.
  - assert (Hne : receivers ≠ []) by (by intros ->).
    destruct (rr_loop_spec receivers senders 0 (rr_init receivers ∅) Hne)
      as (out & Hout & Hdom & Hframe & Hassign).
    { intros r Hr. rewrite rr_init_lookup, decide_True by done. eauto. }
    assert (Hentry : ∀ r, r ∈ receivers → ∃ v, out !! r = Some v
              ∧ ∀ k b, v !! k = Some b →
                  b = true ∧ ∃ i, senders !! i = Some k
                                  ∧ receivers !! (i mod length receivers) = Some r).
    { intros r Hr. destruct (Hframe r ∅) as (v & Hv & _ & Hnew).
      { by rewrite rr_init_lookup, decide_True. }
      exists v. split; [done|]. intros k b Hb.
      destruct (Hnew k b Hb) as [Hold|(-> & j & Hj & Hjr)].
      - by rewrite lookup_empty in Hold.
      - split; [done|]. by exists j. }
    assert (Hdom' : dom out = list_to_set receivers).
    { rewrite Hdom. unfold rr_init. rewrite foldl_insert_dom, dom_empty_L. set_solver. }
    exists out. split; [done|]. split; [done|]. split; [done|]. split.
    { intros i k Hi _. destruct (mod_index_in_range receivers i Hne) as [r Hr].
      destruct (Hassign i k r Hi Hr) as (v & Hv & Hk). by exists r, v. }
    split.
    + intros r v k b Hr Hb.
      assert (r ∈ receivers) as Hin.
      { apply (elem_of_list_to_set (C := gset N)). rewrite <- Hdom'.
        apply elem_of_dom. eauto. }
      destruct (Hentry r Hin) as (v' & Hv' & Hchar).
      assert (v' = v) as -> by congruence. by apply Hchar.
    + intros r Hin Hnone. destruct (Hentry r Hin) as (v & Hv & Hchar).
      rewrite Hv. f_equal. apply map_empty. intros k.
      destruct (v !! k) as [b|] eqn:Hb; [|done].
      destruct (Hchar k b Hb) as (_ & i & Hi & Hir). by destruct (Hnone i k Hi).
Qed.

(** Scenarios S1, S3 and S4 of the specification, with [X = 1], [Y = 2],
    [Z = 3]. *)
Example RRDist_S1 :
  RRDist ["A"; "B"] [1%N; 2%N]
  = Some {[ 1%N := {[ "A" := true ]}; 2%N := {[ "B" := true ]} ]}.
Proof. vm_compute. reflexivity. Qed.

Example RRDist_S3 :
  RRDist ["A"; "B"] [1%N; 2%N; 3%N]
  = Some {[ 1%N := {[ "A" := true ]}; 2%N := {[ "B" := true ]}; 3%N := ∅ ]}.
Proof. vm_compute. reflexivity. Qed.

Example RRDist_S4 :
  RRDist ["B"] [1%N; 2%N] = Some {[ 1%N := {[ "B" := true ]}; 2%N := ∅ ]}.
Proof. vm_compute. reflexivity. Qed.

Example RRDist_no_subscriber : RRDist ["A"; "B"] [] = Some ∅.
Proof. reflexivity. Qed.

(** More tracks than subscribers: the assignment cycles. *)
Example RRDist_cycles :
  RRDist ["A"; "B"; "C"] [1%N; 2%N]
  = Some {[ 1%N := {[ "A" := true; "C" := true ]}; 2%N := {[ "B" := true ]} ]}.
Proof. vm_compute. reflexivity. Qed.

(** Both policies only answer for subscribers they were given. *)
Lemma AllDistF_dom senders receivers :
  ∃ out, AllDistF senders receivers = Some out ∧ dom out = list_to_set receivers.
Proof.
  exists (AllDist senders receivers). split; [done|]. apply AllDist_dom.
Qed.

End Policies.

(** ** Rebalance *)

Section Rebalance.

Implicit Types (lib : Lib) (rg : Ranges) (s : Broadcaster) (u : UUID)
  (v : gmap string bool) (receiver : ReceiverState).

Lemma elem_of_keys {K A} `{!EqDecision K, !Countable K} (m : gmap K A) (k : K) :
  k ∈ keys m ↔ is_Some (m !! k).
Proof.
  unfold keys. rewrite list_elem_of_fmap. split.
  - intros ([k' x] & -> & Hin). apply elem_of_map_to_list in Hin. cbn. eauto.
  - intros [x Hx]. exists (k, x). split; [done|]. by apply elem_of_map_to_list.
Qed.

Lemma key_order_ok : ranges_ok key_order.
Proof. by split. Qed.

(** *** The offer *)

Lemma send_offer_attempts lib u receiver :
  OfferCreate (Connection receiver) ∈ send_offer lib u receiver.
Proof. unfold send_offer. apply list_elem_of_here. Qed.



(** When the offer cannot be created the subscriber is skipped. *)
Lemma send_offer_failed lib u receiver e :
  CreateOffer lib (Connection receiver) = Err e →
  send_offer lib u receiver
  = [OfferCreate (Connection receiver); Log ErrorLevel "Unable to create offer"].
Proof. intros Ho. unfold send_offer. by rewrite Ho. Qed.

(** *** The diff *)

Lemma attached_keys_cons (sender : RTPSender) (l : list RTPSender) :
  attached_keys (sender :: l)
  = match sender_Track sender with
    | Some t => trackKey t :: attached_keys l
    | None => attached_keys l
    end.
Proof. unfold attached_keys. cbn. by destruct (sender_Track sender). Qed.

(** [existingSenders] after the first loop: the attached keys, on top of
    what the map held before. *)
Lemma detach_existing pc v (l : list RTPSender) :
  ∀ (acc : gmap string bool * list Effect) k,
  (foldl (detach_step pc v) acc l).1 !! k
  = if decide (k ∈ attached_keys l) then Some true else acc.1 !! k.
Proof.
  induction l as [|sender l IH]; intros acc k.
  - cbn. rewrite decide_False; [done | apply not_elem_of_nil].
  - rewrite attached_keys_cons. cbn [foldl]. rewrite IH. unfold detach_step.
    destruct (sender_Track sender) as [t|]; [|done]. cbn.
    destruct (decide (k ∈ attached_keys l)) as [Hin|Hnin].
    + rewrite decide_True; [done | by apply list_elem_of_further].
    + destruct (decide (k = trackKey t)) as [->|Hne].
      * rewrite lookup_insert_eq, decide_True; [done | apply list_elem_of_here].
      * rewrite lookup_insert_ne by done. rewrite decide_False; [done|].
        rewrite elem_of_cons. naive_solver.
Qed.




(** *** The whole rebalance *)

(** A rebalance whose policy answers only for registered subscribers does
    not panic: it returns the pruned registry, and its calls are those of
    the pruning followed by one reconcile step per entry of the policy's
    answer, in the order the answer is ranged over. *)
Lemma rebalance_runs lib rg s mtch :
  ranges_ok rg →
  let pruned := pruneClosedConnections lib rg s in
  distributionFunction pruned.1 (range_senders rg (senders pruned.1))
    (range_receivers rg (receivers pruned.1)) = Some mtch →
  dom mtch ⊆ dom (receivers pruned.1) →
  ∃ effs,
    rebalanceReceivers lib rg s = Some (pruned.1, pruned.2 ++ concat effs)
    ∧ Forall2 (λ u e, ∃ v receiver,
                 mtch !! u = Some v ∧ receivers pruned.1 !! u = Some receiver
                 ∧ reconcile lib rg pruned.1 u v = Some e)
              (range_match rg mtch) effs.
Proof.
  intros Hrg pruned Hpol Hsub. unfold rebalanceReceivers. fold pruned.
  cbn zeta. rewrite Hpol. cbn.
  set (f := λ u, mtch !! u ≫= λ v, reconcile lib rg pruned.1 u v).
  assert (Hsome : is_Some (mapM f (range_match rg mtch))).
  { apply mapM_is_Some_2, Forall_forall. intros u Hu. cbn. unfold f.
    rewrite (range_match_ok rg Hrg mtch) in Hu.
    apply elem_of_keys in Hu as Hv. destruct Hv as [v Hv]. rewrite Hv. cbn.
    assert (u ∈ dom (receivers pruned.1)) as Hr.
    { apply Hsub, elem_of_dom. eauto. }
    apply elem_of_dom in Hr as [receiver Hr]. unfold reconcile. rewrite Hr. eauto. }
  destruct Hsome as [effs Heffs]. rewrite Heffs. cbn.
  exists effs. split; [done|].
  apply mapM_Some_1 in Heffs. eapply Forall2_impl; [exact Heffs|].
  intros u e. unfold f. cbn. destruct (mtch !! u) as [v|] eqn:Hv; [|done]. cbn.
  intros He. exists v. unfold reconcile in *.
  destruct (receivers pruned.1 !! u) as [receiver|] eqn:Hr; [|done]. eauto.
Qed.

Lemma prune_step_frame lib (acc : Broadcaster * list Effect) u :
  distributionFunction (prune_step lib acc u).1 = distributionFunction acc.1
  ∧ senders (prune_step lib acc u).1 = senders acc.1
  ∧ peerSender (prune_step lib acc u).1 = peerSender acc.1.
Proof.
  unfold prune_step. destruct (receivers acc.1 !! u) as [rs|]; [|done].
  by destruct (ConnectionState lib (Connection rs)).
Qed.

(** Pruning touches the subscriber map only. *)
Lemma pruneClosedConnections_frame lib rg s :
  distributionFunction (pruneClosedConnections lib rg s).1 = distributionFunction s
  ∧ senders (pruneClosedConnections lib rg s).1 = senders s
  ∧ peerSender (pruneClosedConnections lib rg s).1 = peerSender s.
Proof.
  unfold pruneClosedConnections.
  generalize (range_prune rg (receivers s)). intros l.
  assert (∀ acc : Broadcaster * list Effect,
            distributionFunction (foldl (prune_step lib) acc l).1 = distributionFunction acc.1
            ∧ senders (foldl (prune_step lib) acc l).1 = senders acc.1
            ∧ peerSender (foldl (prune_step lib) acc l).1 = peerSender acc.1) as Hgen.
  { induction l as [|u l IH]; intros acc; [done|]. cbn [foldl].
    destruct (IH (prune_step lib acc u)) as (-> & -> & ->).
    apply prune_step_frame. }
  apply (Hgen (s, [])).
Qed.

(** With either built-in policy a rebalance does not panic: the policy
    answers exactly for the subscribers that are left after pruning. *)
Lemma builtin_policy_rebalance_runs lib rg s :
  ranges_ok rg →
  distributionFunction s = Policy.RRDistF ∨ distributionFunction s = Policy.AllDistF →
  let pruned := pruneClosedConnections lib rg s in
  ∃ mtch,
    distributionFunction pruned.1 (range_senders rg (senders pruned.1))
      (range_receivers rg (receivers pruned.1)) = Some mtch
    ∧ dom mtch = dom (receivers pruned.1)
    ∧ is_Some (rebalanceReceivers lib rg s).
Proof.
  intros Hrg Hpol pruned.
  destruct (pruneClosedConnections_frame lib rg s) as (Hd & _). fold pruned in Hd.
  assert (Hdom : ∀ mtch : gmap N (gmap string bool),
            dom mtch = list_to_set (range_receivers rg (receivers pruned.1)) →
            dom mtch = dom (receivers pruned.1)).
  { intros mtch ->. apply set_eq. intros u.
    rewrite elem_of_list_to_set, (range_receivers_ok rg Hrg), elem_of_keys.
    by rewrite elem_of_dom. }
  assert (∃ mtch,
            distributionFunction pruned.1 (range_senders rg (senders pruned.1))
              (range_receivers rg (receivers pruned.1)) = Some mtch
            ∧ dom mtch = dom (receivers pruned.1)) as (mtch & Hm & Hdm).
  { rewrite Hd. destruct Hpol as [-> | ->].
    - destruct (RRDist_dom (range_senders rg (senders pruned.1))
                  (range_receivers rg (receivers pruned.1))) as (mtch & Hm & Hdm).
      exists mtch. split; [done | by apply Hdom].
    - destruct (AllDistF_dom (range_senders rg (senders pruned.1))
                  (range_receivers rg (receivers pruned.1))) as (mtch & Hm & Hdm).
      exists mtch. split; [done | by apply Hdom]. }
  exists mtch. split; [done|]. split; [done|].
  destruct (rebalance_runs lib rg s mtch Hrg Hm) as (effs & -> & _); [|eauto].
  fold pruned. by rewrite Hdm.
Qed.

Lemma Forall2_pick {A B} (R : A → B → Prop) (l : list A) (k : list B) (x : A) :
  Forall2 R l k → x ∈ l → ∃ y, y ∈ k ∧ R x y.
Proof.
  induction 1 as [|a b l k Hab _ IH]; intros Hx.
  - by apply not_elem_of_nil in Hx.
  - apply elem_of_cons in Hx as [->|Hx].
    + exists b. split; [apply list_elem_of_here | done].
    + destruct (IH Hx) as (y & Hy & HR). exists y.
      split; [by apply list_elem_of_further | done].
Qed.

Lemma elem_of_concat_2 {A} (x : A) (l : list A) (ls : list (list A)) :
  x ∈ l → l ∈ ls → x ∈ concat ls.
Proof.
  rewrite !list_elem_of_In. intros Hx Hl. apply in_concat. eauto.
Qed.

Lemma reconcile_ends_with_offer lib rg s u v receiver e :
  receivers s !! u = Some receiver →
  reconcile lib rg s u v = Some e →
  ∀ x, x ∈ send_offer lib u receiver → x ∈ e.
Proof.
  unfold reconcile. intros ->. cbn. intros [= <-] x Hx.
  rewrite !elem_of_app. auto.
Qed.




(** The same rebalance run on the model: the session of subscriber 1
    already carries [cam/A], nothing is attached or detached, and the offer
    goes out on socket 21. *)
Example rebalance_empty_diff_runs :
  rebalanceReceivers (Sample.lib Sample.attachedA) key_order
    Sample.one_track_one_subscriber
  = Some (Sample.one_track_one_subscriber,
          [OfferCreate 20;
           LocalDescriptionSet 20 (Sample.offer_of 20);
           Log DebugLevel "Sending offer";
           SocketWrite 21 MessageText "{event:offer,data:{sdp:v=0}}"]).
Proof. reflexivity. Qed.

(** With nothing attached yet, the track is attached first. *)
Example rebalance_attach_runs :
  rebalanceReceivers (Sample.lib (λ _, [])) key_order Sample.one_track_one_subscriber
  = Some (Sample.one_track_one_subscriber,
          [AddTrack 20 (Some Sample.trackA);
           OfferCreate 20;
           LocalDescriptionSet 20 (Sample.offer_of 20);
           Log DebugLevel "Sending offer";
           SocketWrite 21 MessageText "{event:offer,data:{sdp:v=0}}"]).
Proof. reflexivity. Qed.

End Rebalance.

(** * Further properties of the registry *)

Section RegistryLaws.

Implicit Types (s : Broadcaster) (id : UUID) (tl : TrackLocal)
  (receiver : ReceiverState) (peer : PeerSenderState).

Lemma set_receivers_id s (f : gmap N ReceiverState → gmap N ReceiverState) :
  f (receivers s) = receivers s → set_receivers f s = s.
Proof. destruct s. unfold set_receivers. cbn. by intros ->. Qed.

Lemma set_senders_id s (f : gmap string TrackLocal → gmap string TrackLocal) :
  f (senders s) = senders s → set_senders f s = s.
Proof. destruct s. unfold set_senders. cbn. by intros ->. Qed.

(** X1: a publisher admitted by [AddPeerSender] is found again by
    [GetPeerSender] under the id that was returned; the lookups of all
    other ids, the tracks and the subscribers are as before. *)
Theorem AddPeerSender_GetPeerSender s peer id :
  (AddPeerSender s peer id).2 = id
  ∧ GetPeerSender (AddPeerSender s peer id).1 id = Some peer
  ∧ (∀ id', id' ≠ id →
       GetPeerSender (AddPeerSender s peer id).1 id' = GetPeerSender s id')
  ∧ senders (AddPeerSender s peer id).1 = senders s
  ∧ receivers (AddPeerSender s peer id).1 = receivers s.
Proof.
  unfold AddPeerSender, GetPeerSender. cbn. repeat split.
  - apply lookup_insert_eq.
  - intros id' Hne. by rewrite lookup_insert_ne.
Qed.

(** X2: removing a subscriber that was just admitted under a fresh id gives
    back the registry from before the admission; on the way the signaling
    socket is closed with a normal closure and the reason "Ending
    operation", then the media session is closed, then a rebalance is
    spawned. *)
Theorem AddReceiver_then_RemoveReceiver s receiver id :
  receivers s !! id = None →
  (AddReceiver s receiver id).1.2 = id
  ∧ (RemoveReceiver (AddReceiver s receiver id).1.1 id).1 = s
  ∧ (RemoveReceiver (AddReceiver s receiver id).1.1 id).2
    = [SocketClose (SignalSocket receiver) StatusNormalClosure "Ending operation";
       ConnClose (Connection receiver);
       GoRebalance].
Proof.
  intros Hfresh. unfold AddReceiver, RemoveReceiver. cbn.
  rewrite lookup_insert_eq. cbn. repeat split.
  destruct s as [ps ss rs df]. unfold set_receivers. cbn in *.
  by rewrite delete_insert_id.
Qed.

Lemma AddReceiver_then_RemoveReceiver_witness :
  (AddReceiver Sample.one_track Sample.subscriberX 1%N).1.2 = 1%N
  ∧ (RemoveReceiver (AddReceiver Sample.one_track Sample.subscriberX 1%N).1.1 1%N).1
    = Sample.one_track
  ∧ (RemoveReceiver (AddReceiver Sample.one_track Sample.subscriberX 1%N).1.1 1%N).2
    = [SocketClose (SignalSocket Sample.subscriberX) StatusNormalClosure "Ending operation";
       ConnClose (Connection Sample.subscriberX);
       GoRebalance].
Proof.
  apply (AddReceiver_then_RemoveReceiver Sample.one_track Sample.subscriberX 1%N).
  reflexivity.
Defined.

(** X3: [RemoveReceiver] of a registered subscriber deletes that entry and
    no other, leaves publishers and tracks alone, and closes the socket and
    the session of that subscriber only; removing the same id again does
    nothing at all. *)
Theorem RemoveReceiver_present s id receiver :
  receivers s !! id = Some receiver →
  receivers (RemoveReceiver s id).1 !! id = None
  ∧ (∀ id', id' ≠ id → receivers (RemoveReceiver s id).1 !! id' = receivers s !! id')
  ∧ peerSender (RemoveReceiver s id).1 = peerSender s
  ∧ senders (RemoveReceiver s id).1 = senders s
  ∧ (RemoveReceiver s id).2
    = [SocketClose (SignalSocket receiver) StatusNormalClosure "Ending operation";
       ConnClose (Connection receiver);
       GoRebalance]
  ∧ RemoveReceiver (RemoveReceiver s id).1 id = ((RemoveReceiver s id).1, []).
Proof.
  intros Hin. unfold RemoveReceiver at 1 2 3 4 5 7. rewrite Hin. cbn.
  repeat split.
  - apply lookup_delete_eq.
  - intros id' Hne. by rewrite lookup_delete_ne.
  - unfold RemoveReceiver. rewrite Hin. cbn. by rewrite lookup_delete_eq.
Qed.

Lemma RemoveReceiver_present_witness :
  receivers (RemoveReceiver Sample.one_track_one_subscriber 1%N).1 !! 1%N = None
  ∧ (∀ id', id' ≠ 1%N →
       receivers (RemoveReceiver Sample.one_track_one_subscriber 1%N).1 !! id'
       = receivers Sample.one_track_one_subscriber !! id')
  ∧ peerSender (RemoveReceiver Sample.one_track_one_subscriber 1%N).1
    = peerSender Sample.one_track_one_subscriber
  ∧ senders (RemoveReceiver Sample.one_track_one_subscriber 1%N).1
    = senders Sample.one_track_one_subscriber
  ∧ (RemoveReceiver Sample.one_track_one_subscriber 1%N).2
    = [SocketClose (SignalSocket Sample.subscriberX) StatusNormalClosure "Ending operation";
       ConnClose (Connection Sample.subscriberX);
       GoRebalance]
  ∧ RemoveReceiver (RemoveReceiver Sample.one_track_one_subscriber 1%N).1 1%N
    = ((RemoveReceiver Sample.one_track_one_subscriber 1%N).1, []).
Proof.
  apply (RemoveReceiver_present Sample.one_track_one_subscriber 1%N Sample.subscriberX).
  reflexivity.
Defined.

End RegistryLaws.

(** * Further properties of tracks and forwarders *)

Section TrackLaws.

Implicit Types (lib : Lib) (s : Broadcaster) (tl : TrackLocal) (t : TrackRemote).

Lemma string_app_assoc (a b c : string) : (a +:+ b) +:+ c = a +:+ (b +:+ c).
Proof.
  induction a as [|x a IH]; [done|].
  change (String x ((a +:+ b) +:+ c) = String x (a +:+ (b +:+ c))).
  by rewrite IH.
Qed.

(** X4: the composite key is the plain concatenation of stream id and track
    id, so it does not tell where one ends and the other begins: moving a
    piece from the end of the stream id to the front of the track id gives
    the same key. *)
Theorem trackKey_boundary_is_lost (c c' : RTPCodecCapability) (a b d : string) :
  trackKey {| local_Codec := c; local_ID := d; local_StreamID := a +:+ b |}
  = trackKey {| local_Codec := c'; local_ID := b +:+ d; local_StreamID := a |}.
Proof. unfold trackKey. cbn. apply string_app_assoc. Qed.

(** X5: when the local track is created, [AddSender] returns it and
    registers it under its composite key, replacing whatever was registered
    there; no other key, no publisher and no subscriber changes; the number
    of tracks grows by one exactly when the key was free; the forwarder is
    spawned before the rebalance. *)
Theorem AddSender_registers lib s t tl :
  NewTrackLocalStaticRTP lib (remote_Codec t) (remote_ID t) (remote_StreamID t) = Ok tl →
  (AddSender lib s t).1.2 = Some tl
  ∧ senders (AddSender lib s t).1.1 !! trackKey tl = Some tl
  ∧ (∀ k, k ≠ trackKey tl → senders (AddSender lib s t).1.1 !! k = senders s !! k)
  ∧ peerSender (AddSender lib s t).1.1 = peerSender s
  ∧ receivers (AddSender lib s t).1.1 = receivers s
  ∧ size (senders (AddSender lib s t).1.1)
    = match senders s !! trackKey tl with
      | Some _ => size (senders s)
      | None => S (size (senders s))
      end
  ∧ filter (λ e, spawns e = true) (AddSender lib s t).2 = [GoForwarder t tl; GoRebalance].
Proof.
  intros Hnew. rewrite (AddSender_ok lib s t tl Hnew). cbn. repeat split.
  - apply lookup_insert_eq.
  - intros k Hk. by rewrite lookup_insert_ne.
  - destruct (senders s !! trackKey tl) as [old|] eqn:Hold.
    + by rewrite map_size_insert_Some.
    + by rewrite map_size_insert_None.
Qed.

Lemma AddSender_registers_witness :
  let lib := Sample.lib (λ _, []) in
  let s := Sample.one_publisher in
  (AddSender lib s Sample.remoteA).1.2 = Some Sample.trackA
  ∧ senders (AddSender lib s Sample.remoteA).1.1 !! trackKey Sample.trackA
    = Some Sample.trackA
  ∧ (∀ k, k ≠ trackKey Sample.trackA →
          senders (AddSender lib s Sample.remoteA).1.1 !! k = senders s !! k)
  ∧ peerSender (AddSender lib s Sample.remoteA).1.1 = peerSender s
  ∧ receivers (AddSender lib s Sample.remoteA).1.1 = receivers s
  ∧ size (senders (AddSender lib s Sample.remoteA).1.1)
    = match senders s !! trackKey Sample.trackA with
      | Some _ => size (senders s)
      | None => S (size (senders s))
      end
  ∧ filter (λ e, spawns e = true) (AddSender lib s Sample.remoteA).2
    = [GoForwarder Sample.remoteA Sample.trackA; GoRebalance].
Proof.
  exact (AddSender_registers (Sample.lib (λ _, [])) Sample.one_publisher
           Sample.remoteA Sample.trackA eq_refl).
Defined.

(** X6: a track registered under a free key and then lost to a read error
    of its forwarder leaves the registry exactly as it was before the
    track arrived. *)
Theorem AddSender_then_read_error lib s t tl err :
  NewTrackLocalStaticRTP lib (remote_Codec t) (remote_ID t) (remote_StreamID t) = Ok tl →
  senders s !! trackKey tl = None →
  (forwarder_iter (AddSender lib s t).1.1 tl (ReadFails err)).1.2 = s.
Proof.
  intros Hnew Hfree. rewrite (AddSender_ok lib s t tl Hnew). cbn.
  rewrite RemoveSender_present.
  - cbn. destruct s as [ps ss rs df]. unfold set_senders. cbn in *.
    by rewrite delete_insert_id.
  - cbn. rewrite lookup_insert_eq. eauto.
Qed.

Lemma AddSender_then_read_error_witness :
  (forwarder_iter (AddSender (Sample.lib (λ _, [])) Sample.one_publisher Sample.remoteA).1.1
     Sample.trackA (ReadFails EOF)).1.2
  = Sample.one_publisher.
Proof.
  exact (AddSender_then_read_error (Sample.lib (λ _, [])) Sample.one_publisher
           Sample.remoteA Sample.trackA EOF eq_refl eq_refl).
Defined.

(** X7: tracks are removed by key, not by identity.  When two remote
    tracks yield the same composite key, the second registration replaces
    the first, and a read error on the first track's forwarder unregisters
    the second track, whose own forwarder is still running. *)
Theorem read_error_unregisters_key_sharer lib s t1 t2 tl1 tl2 err :
  NewTrackLocalStaticRTP lib (remote_Codec t1) (remote_ID t1) (remote_StreamID t1) = Ok tl1 →
  NewTrackLocalStaticRTP lib (remote_Codec t2) (remote_ID t2) (remote_StreamID t2) = Ok tl2 →
  trackKey tl1 = trackKey tl2 →
  let s2 := (AddSender lib (AddSender lib s t1).1.1 t2).1.1 in
  senders s2 !! trackKey tl2 = Some tl2
  ∧ senders (forwarder_iter s2 tl1 (ReadFails err)).1.2 !! trackKey tl2 = None
  ∧ GoRebalance ∈ (forwarder_iter s2 tl1 (ReadFails err)).2.
Proof.
  intros H1 H2 Hkey s2. unfold s2.
  rewrite (AddSender_ok lib s t1 tl1 H1). cbn.
  rewrite (AddSender_ok lib _ t2 tl2 H2). cbn.
  split; [apply lookup_insert_eq|].
  rewrite RemoveSender_present.
  - cbn. rewrite Hkey. split; [apply lookup_delete_eq|].
    apply list_elem_of_further, list_elem_of_here.
  - cbn. rewrite Hkey, lookup_insert_eq. eauto.
Qed.

Lemma read_error_unregisters_key_sharer_witness :
  let lib := Sample.lib (λ _, []) in
  let s2 := (AddSender lib (AddSender lib Sample.one_publisher Sample.remoteA).1.1
               More.remoteA').1.1 in
  senders s2 !! trackKey More.trackA' = Some More.trackA'
  ∧ senders (forwarder_iter s2 Sample.trackA (ReadFails EOF)).1.2 !! trackKey More.trackA'
    = None
  ∧ GoRebalance ∈ (forwarder_iter s2 Sample.trackA (ReadFails EOF)).2.
Proof.
  exact (read_error_unregisters_key_sharer (Sample.lib (λ _, [])) Sample.one_publisher
           Sample.remoteA More.remoteA' Sample.trackA More.trackA' EOF
           eq_refl eq_refl eq_refl).
Defined.

End TrackLaws.

Section ForwarderRuns.

Implicit Types (s : Broadcaster) (tl : TrackLocal)
  (pkts : list (list Byte.byte * option error)).

Lemma forwarder_cons_running s tl payload werr rest :
  keeps_going werr →
  forwarder s tl (ReadThenWrite payload werr :: rest)
  = ((forwarder s tl rest).1.1, (forwarder s tl rest).1.2,
     SinkWrite tl payload :: (forwarder s tl rest).2).
Proof.
  intros Hk. cbn [forwarder].
  assert (forwarder_iter s tl (ReadThenWrite payload werr)
          = (Running, s, [SinkWrite tl payload])) as ->.
  { cbn. destruct werr as [e|]; [|done]. cbn in Hk. by rewrite Hk. }
  by destruct (forwarder s tl rest) as [[st s'] eff].
Qed.

Lemma forwarder_forwards_in_order_aux s tl pkts :
  Forall (λ p, keeps_going p.2) pkts →
  forwarder s tl ((λ p, ReadThenWrite p.1 p.2) <$> pkts)
  = (Running, s, (λ p, SinkWrite tl p.1) <$> pkts).
Proof.
  induction 1 as [|[payload werr] pkts Hk _ IH]; [done|].
  cbn [fmap list_fmap]. cbn [fst snd] in *.
  rewrite forwarder_cons_running by done.
  change (list_fmap _ _ ?f pkts) with (f <$> pkts). by rewrite IH.
Qed.

(** X8: as long as reads succeed and writes succeed or fail with
    [io.ErrClosedPipe], the forwarder is still in its loop, has written
    every packet it read to the sink, once and in the order read, and has
    not touched the registry. *)
Theorem forwarder_forwards_in_order s tl pkts :
  Forall (λ p, keeps_going p.2) pkts →
  forwarder s tl ((λ p, ReadThenWrite p.1 p.2) <$> pkts)
  = (Running, s, (λ p, SinkWrite tl p.1) <$> pkts).
Proof.
  intros Hk. destruct (forwarder s tl _) as [[st s'] eff] eqn:Hrun.
  rewrite (forwarder_forwards_in_order_aux s tl pkts Hk) in Hrun.
  by inversion Hrun.
Qed.

Lemma forwarder_forwards_in_order_witness :
  forwarder Sample.one_track Sample.trackA
    ((λ p, ReadThenWrite p.1 p.2)
       <$> [(Sample.packet, None); ([], Some (Wrap "write" ErrClosedPipe));
            (Sample.packet, None)])
  = (Running, Sample.one_track,
     (λ p, SinkWrite Sample.trackA p.1)
       <$> [(Sample.packet, None); ([], Some (Wrap "write" ErrClosedPipe));
            (Sample.packet, None)]).
Proof.
  apply (forwarder_forwards_in_order Sample.one_track Sample.trackA).
  repeat constructor.
Defined.

Lemma forwarder_app_running s tl pre post :
  (forwarder s tl pre).1.1 = Running →
  forwarder s tl (pre ++ post)
  = ((forwarder (forwarder s tl pre).1.2 tl post).1.1,
     (forwarder (forwarder s tl pre).1.2 tl post).1.2,
     (forwarder s tl pre).2 ++ (forwarder (forwarder s tl pre).1.2 tl post).2).
Proof.
  revert s. induction pre as [|io pre IH]; intros s.
  - intros _. cbn. by destruct (forwarder s tl post) as [[st s'] eff].
  - cbn [forwarder app].
    destruct (forwarder_iter s tl io) as [[st s'] eff]. destruct st; [|done].
    specialize (IH s').
    destruct (forwarder s' tl pre) as [[st1 s1] eff1]. cbn in *.
    intros Hrun. rewrite (IH Hrun).
    destruct (forwarder s1 tl post) as [[st2 s2] eff2]. cbn.
    by rewrite app_assoc.
Qed.

(** X9: once the forwarder has returned, whatever the network would
    deliver afterwards is neither read nor written and no longer changes
    the registry. *)
Theorem forwarder_stops_after_return s tl pre post :
  (forwarder s tl pre).1.1 = Returned →
  forwarder s tl (pre ++ post) = forwarder s tl pre.
Proof.
  revert s. induction pre as [|io pre IH]; intros s; cbn [forwarder app]; [done|].
  destruct (forwarder_iter s tl io) as [[st s'] eff]. destruct st; [|done].
  specialize (IH s'). destruct (forwarder s' tl pre) as [[st1 s1] eff1]. cbn in *.
  intros Hret. rewrite (IH Hret). done.
Qed.

Lemma forwarder_stops_after_return_witness :
  forwarder Sample.one_track Sample.trackA
    ([ReadThenWrite Sample.packet (Some (ErrOther "short write"))]
     ++ [ReadThenWrite Sample.packet None; ReadFails EOF])
  = forwarder Sample.one_track Sample.trackA
      [ReadThenWrite Sample.packet (Some (ErrOther "short write"))].
Proof.
  apply (forwarder_stops_after_return Sample.one_track Sample.trackA).
  reflexivity.
Defined.

(** X10: a forwarder that ends on a write error other than
    [io.ErrClosedPipe] leaves its track registered: the registry after the
    run is the one it started with, although no goroutine feeds the track
    any more. *)
Theorem forwarder_fatal_write_keeps_track s tl pkts payload e post :
  Forall (λ p, keeps_going p.2) pkts →
  errors_Is e IsClosedPipe = false →
  forwarder s tl (((λ p, ReadThenWrite p.1 p.2) <$> pkts)
                  ++ ReadThenWrite payload (Some e) :: post)
  = (Returned, s, ((λ p, SinkWrite tl p.1) <$> pkts) ++ [SinkWrite tl payload]).
Proof.
  intros Hk He. rewrite forwarder_app_running.
  - rewrite (forwarder_forwards_in_order_aux s tl pkts Hk). cbn. by rewrite He.
  - by rewrite (forwarder_forwards_in_order_aux s tl pkts Hk).
Qed.

Lemma forwarder_fatal_write_keeps_track_witness :
  forwarder Sample.one_track Sample.trackA
    (((λ p, ReadThenWrite p.1 p.2) <$> [(Sample.packet, None)])
     ++ ReadThenWrite Sample.packet (Some (ErrOther "short write"))
        :: [ReadThenWrite Sample.packet None])
  = (Returned, Sample.one_track,
     ((λ p : list Byte.byte * option error, SinkWrite Sample.trackA p.1)
        <$> [(Sample.packet, None)])
     ++ [SinkWrite Sample.trackA Sample.packet]).
Proof.
  apply (forwarder_fatal_write_keeps_track Sample.one_track Sample.trackA
           [(Sample.packet, None)] Sample.packet (ErrOther "short write")
           [ReadThenWrite Sample.packet None]).
  - repeat constructor.
  - reflexivity.
Defined.

End ForwarderRuns.

(** * Further properties of the rebalance *)

Section Pruning.

Implicit Types (lib : Lib) (rg : Ranges) (s : Broadcaster) (u : UUID).

Lemma prune_step_receivers lib (acc : Broadcaster * list Effect) a u :
  receivers (prune_step lib acc a).1 !! u
  = match receivers acc.1 !! u with
    | Some rs => if is_closed lib rs && bool_decide (u = a) then None else Some rs
    | None => None
    end.
Proof.
  unfold prune_step, is_closed.
  destruct (decide (u = a)) as [->|Hne].
  - rewrite bool_decide_eq_true_2 by done.
    destruct (receivers acc.1 !! a) as [rs|] eqn:Ha; [|done].
    destruct (ConnectionState lib (Connection rs)); cbn; rewrite ?Ha; try done.
    apply lookup_delete_eq.
  - rewrite bool_decide_eq_false_2 by done.
    assert (∀ b (rs : ReceiverState),
              (if b && false then @None ReceiverState else Some rs) = Some rs) as Hff
      by (by intros []).
    destruct (receivers acc.1 !! a) as [rs|] eqn:Ha.
    + destruct (ConnectionState lib (Connection rs)); cbn;
        rewrite ?lookup_delete_ne by done;
        destruct (receivers acc.1 !! u); by rewrite ?Hff.
    + destruct (receivers acc.1 !! u); by rewrite ?Hff.
Qed.

Lemma prune_fold_receivers lib (l : list N) : ∀ (acc : Broadcaster * list Effect) u,
  receivers (foldl (prune_step lib) acc l).1 !! u
  = match receivers acc.1 !! u with
    | Some rs => if is_closed lib rs && bool_decide (u ∈ l) then None else Some rs
    | None => None
    end.
Proof.
  induction l as [|a l IH]; intros acc u.
  - cbn. destruct (receivers acc.1 !! u) as [rs|]; [|done].
    rewrite bool_decide_eq_false_2 by apply not_elem_of_nil.
    by destruct (is_closed lib rs).
  - cbn [foldl]. rewrite IH, prune_step_receivers.
    destruct (receivers acc.1 !! u) as [rs|]; [|done].
    destruct (is_closed lib rs) eqn:Hc; cbn; rewrite ?Hc; cbn; [|done].
    destruct (decide (u = a)) as [->|Hne].
    + rewrite bool_decide_eq_true_2 by done.
      by rewrite (bool_decide_eq_true_2 (a ∈ a :: l)) by apply list_elem_of_here.
    + rewrite (bool_decide_eq_false_2 (u = a)) by done. cbn. rewrite ?Hc. cbn.
      rewrite (bool_decide_ext (u ∈ l) (u ∈ a :: l)); [done|].
      rewrite elem_of_cons. naive_solver.
Qed.

Lemma prune_fold_effects lib (l : list N) : ∀ (acc : Broadcaster * list Effect) e,
  e ∈ (foldl (prune_step lib) acc l).2
  ↔ e ∈ acc.2
    ∨ ∃ u rs, u ∈ l ∧ receivers acc.1 !! u = Some rs ∧ is_closed lib rs = true
              ∧ e = SocketClose (SignalSocket rs) StatusGoingAway "WebRTC connection closed".
Proof.
  induction l as [|a l IH]; intros acc e.
  - cbn. split; [by left|]. intros [?|(u & rs & Hu & _)]; [done|].
    by apply not_elem_of_nil in Hu.
  - cbn [foldl]. rewrite IH. clear IH.
    assert (Hcase :
      (prune_step lib acc a = acc
       ∧ ∀ rs, receivers acc.1 !! a = Some rs → is_closed lib rs = false)
      ∨ (∃ rs, receivers acc.1 !! a = Some rs ∧ is_closed lib rs = true
           ∧ prune_step lib acc a
             = (set_receivers (delete a) acc.1,
                acc.2 ++ [SocketClose (SignalSocket rs) StatusGoingAway
                            "WebRTC connection closed"]))).
    { unfold prune_step, is_closed.
      destruct (receivers acc.1 !! a) as [rs|]; [|left; split; [done|by intros ?]].
      destruct (ConnectionState lib (Connection rs)) eqn:Hst;
        try (left; split; [done|]; intros rs' [= <-]; by rewrite Hst).
      right. exists rs. by rewrite Hst. }
    destruct Hcase as [[-> Hopen]|(rsa & Ha & Hcl & ->)].
    + split.
      * intros [?|(u & rs & Hu & Hr & Hc & ->)]; [by left|].
        right. exists u, rs. split; [by apply list_elem_of_further | done].
      * intros [?|(u & rs & Hu & Hr & Hc & ->)]; [by left|].
        right. exists u, rs. apply elem_of_cons in Hu as [->|Hu]; [|done].
        rewrite (Hopen rs Hr) in Hc. done.
    + cbn. split.
      * intros [Hin|(u & rs & Hu & Hr & Hc & ->)].
        -- apply elem_of_app in Hin as [?|Hin]; [by left|].
           apply list_elem_of_singleton in Hin as ->.
           right. exists a, rsa. split; [apply list_elem_of_here | done].
        -- right. exists u, rs. split; [by apply list_elem_of_further|].
           split; [|done]. destruct (decide (u = a)) as [->|Hne].
           ++ by rewrite lookup_delete_eq in Hr.
           ++ by rewrite lookup_delete_ne in Hr.
      * intros [?|(u & rs & Hu & Hr & Hc & ->)].
        -- left. apply elem_of_app. by left.
        -- destruct (decide (u = a)) as [->|Hne].
           ++ left. assert (rs = rsa) as -> by congruence.
              apply elem_of_app. right. apply list_elem_of_here.
           ++ right. exists u, rs. apply elem_of_cons in Hu as [?|Hu]; [done|].
              split; [done|]. by rewrite lookup_delete_ne.
Qed.

Lemma prune_receivers_spec lib rg s u :
  ranges_ok rg →
  receivers (pruneClosedConnections lib rg s).1 !! u
  = match receivers s !! u with
    | Some rs => if is_closed lib rs then None else Some rs
    | None => None
    end.
Proof.
  intros Hrg. unfold pruneClosedConnections. rewrite prune_fold_receivers. cbn.
  destruct (receivers s !! u) as [rs|] eqn:Hu; [|done].
  rewrite bool_decide_eq_true_2.
  - by destruct (is_closed lib rs).
  - rewrite (range_prune_ok rg Hrg). apply elem_of_keys. eauto.
Qed.

Lemma prune_effects_spec lib rg s e :
  ranges_ok rg →
  e ∈ (pruneClosedConnections lib rg s).2
  ↔ ∃ u rs, receivers s !! u = Some rs ∧ is_closed lib rs = true
            ∧ e = SocketClose (SignalSocket rs) StatusGoingAway
                    "WebRTC connection closed".
Proof.
  intros Hrg. unfold pruneClosedConnections. rewrite prune_fold_effects. cbn. split.
  - intros [Hnil|(u & rs & _ & Hr & Hc & ->)]; [by apply not_elem_of_nil in Hnil|].
    by exists u, rs.
  - intros (u & rs & Hr & Hc & ->). right. exists u, rs.
    split; [|done]. rewrite (range_prune_ok rg Hrg). apply elem_of_keys. eauto.
Qed.

(** X11: pruning keeps exactly the subscribers whose session is not in the
    closed state, with their entries unchanged; the sockets it closes are
    exactly those of the subscribers whose session is closed, each with
    status going-away and the reason "WebRTC connection closed"; tracks and
    publishers are not touched. *)
Theorem pruneClosedConnections_keeps_open lib rg s :
  ranges_ok rg →
  (∀ u, receivers (pruneClosedConnections lib rg s).1 !! u
        = match receivers s !! u with
          | Some rs => if is_closed lib rs then None else Some rs
          | None => None
          end)
  ∧ (∀ e, e ∈ (pruneClosedConnections lib rg s).2
          ↔ ∃ u rs, receivers s !! u = Some rs ∧ is_closed lib rs = true
                    ∧ e = SocketClose (SignalSocket rs) StatusGoingAway
                            "WebRTC connection closed")
  ∧ senders (pruneClosedConnections lib rg s).1 = senders s
  ∧ peerSender (pruneClosedConnections lib rg s).1 = peerSender s.
Proof.
  intros Hrg. split; [|split].
  - intros u. by apply prune_receivers_spec.
  - intros e. by apply prune_effects_spec.
  - by destruct (pruneClosedConnections_frame lib rg s) as (_ & ? & ?).
Qed.

Lemma pruneClosedConnections_keeps_open_witness :
  (∀ u, receivers (pruneClosedConnections More.lib_closed_30 key_order
                     More.two_subscribers).1 !! u
        = match receivers More.two_subscribers !! u with
          | Some rs => if is_closed More.lib_closed_30 rs then None else Some rs
          | None => None
          end)
  ∧ (∀ e, e ∈ (pruneClosedConnections More.lib_closed_30 key_order
                 More.two_subscribers).2
          ↔ ∃ u rs, receivers More.two_subscribers !! u = Some rs
                    ∧ is_closed More.lib_closed_30 rs = true
                    ∧ e = SocketClose (SignalSocket rs) StatusGoingAway
                            "WebRTC connection closed")
  ∧ senders (pruneClosedConnections More.lib_closed_30 key_order
               More.two_subscribers).1 = senders More.two_subscribers
  ∧ peerSender (pruneClosedConnections More.lib_closed_30 key_order
                  More.two_subscribers).1 = peerSender More.two_subscribers.
Proof.
  apply (pruneClosedConnections_keeps_open More.lib_closed_30 key_order
           More.two_subscribers).
  split; reflexivity.
Defined.

Example prune_runs :
  receivers (pruneClosedConnections More.lib_closed_30 key_order More.two_subscribers).1
  = {[ 1%N := Sample.subscriberX ]}
  ∧ (pruneClosedConnections More.lib_closed_30 key_order More.two_subscribers).2
    = [SocketClose 31 StatusGoingAway "WebRTC connection closed"].
Proof. split; reflexivity. Qed.

End Pruning.

Section Reconciling.

Implicit Types (lib : Lib) (rg : Ranges) (s : Broadcaster) (u : UUID)
  (v : gmap string bool) (receiver : ReceiverState).

Lemma detach_fold_effects pc v (l : list RTPSender) :
  ∀ (acc : gmap string bool * list Effect) e,
  e ∈ (foldl (detach_step pc v) acc l).2
  ↔ e ∈ acc.2
    ∨ ∃ sender t, sender ∈ l ∧ sender_Track sender = Some t
                  ∧ v !! trackKey t = None ∧ e = RemoveTrack pc sender.
Proof.
  induction l as [|x l IH]; intros acc e.
  - cbn. split; [by left|]. intros [?|(sender & t & Hin & _)]; [done|].
    by apply not_elem_of_nil in Hin.
  - cbn [foldl]. rewrite IH. clear IH. unfold detach_step.
    destruct (sender_Track x) as [tx|] eqn:Hx; cbn.
    + destruct (v !! trackKey tx) as [b|] eqn:Hv; cbn.
      * split; intros [?|(sender & t & Hin & Ht & Hnone & ->)]; try by left.
        -- right. exists sender, t. split; [by apply list_elem_of_further | done].
        -- right. exists sender, t. apply elem_of_cons in Hin as [->|Hin]; [|done].
           congruence.
      * rewrite elem_of_app, list_elem_of_singleton. split.
        -- intros [[?| ->]|(sender & t & Hin & Ht & Hnone & ->)]; [by left| |].
           ++ right. exists x, tx. split; [apply list_elem_of_here | done].
           ++ right. exists sender, t. split; [by apply list_elem_of_further | done].
        -- intros [?|(sender & t & Hin & Ht & Hnone & ->)]; [by left; left|].
           apply elem_of_cons in Hin as [->|Hin]; [by left; right|].
           right. by exists sender, t.
    + split; intros [?|(sender & t & Hin & Ht & Hnone & ->)]; try by left.
      * right. exists sender, t. split; [by apply list_elem_of_further | done].
      * right. exists sender, t. apply elem_of_cons in Hin as [->|Hin]; [|done].
        congruence.
Qed.

Lemma attach_loop_elem s pc (existing : gmap string bool) (order : list string) e :
  e ∈ attach_loop s pc existing order
  ↔ ∃ k, k ∈ order ∧ existing !! k = None ∧ e = AddTrack pc (senders s !! k).
Proof.
  unfold attach_loop. rewrite list_elem_of_In, in_flat_map. split.
  - intros (k & Hk & He). exists k. apply list_elem_of_In in Hk.
    destruct (existing !! k); [by destruct He|].
    destruct He as [<-|[]]. done.
  - intros (k & Hk & Hex & ->). exists k. apply list_elem_of_In in Hk.
    rewrite Hex. split; [done | by left].
Qed.

Lemma send_offer_shape lib u receiver x :
  x ∈ send_offer lib u receiver →
  spawns x = false
  ∧ changes_tracks x = false
  ∧ (∀ c typ payload, x = SocketWrite c typ payload →
       c = SignalSocket receiver ∧ typ = MessageText)
  ∧ (∀ c code reason, x ≠ SocketClose c code reason).
Proof.
  unfold send_offer.
  destruct (CreateOffer lib (Connection receiver)) as [offer|e];
    [destruct (SetLocalDescription lib (Connection receiver) offer);
     destruct (json_Marshal_offer lib offer) as [offerString|];
     [destruct (json_Marshal_message lib _)| |destruct (json_Marshal_message lib _)|]|];
    cbn; rewrite ?elem_of_cons, ?elem_of_nil; intros Hx;
    destruct_or! Hx; try done; subst x;
    (split; [done|]; split; [done|]; split; [|done]);
    intros c typ payload Heq; by simplify_eq.
Qed.

(** X12: the reconcile step of a registered subscriber detaches exactly the
    attached tracks whose key is not in the target set (senders without a
    track are skipped), attaches exactly the target keys that no attached
    track has, each with the track registered under that key, and changes
    no other track. *)
Theorem reconcile_diff lib rg s u v receiver :
  ranges_ok rg →
  receivers s !! u = Some receiver →
  ∃ e, reconcile lib rg s u v = Some e
    ∧ (∀ sender,
         RemoveTrack (Connection receiver) sender ∈ e
         ↔ sender ∈ GetSenders lib (Connection receiver)
           ∧ ∃ t, sender_Track sender = Some t ∧ v !! trackKey t = None)
    ∧ (∀ track,
         AddTrack (Connection receiver) track ∈ e
         ↔ ∃ k, is_Some (v !! k)
                ∧ (k ∉ attached_keys (GetSenders lib (Connection receiver)))
                ∧ track = senders s !! k)
    ∧ (∀ x, x ∈ e → changes_tracks x = true →
         (∃ sender, x = RemoveTrack (Connection receiver) sender)
         ∨ (∃ track, x = AddTrack (Connection receiver) track)).
Proof.
  intros Hrg Hu. unfold reconcile. rewrite Hu. cbn.
  set (pc := Connection receiver). set (l := GetSenders lib pc).
  eexists. split; [reflexivity|].
  assert (Hexisting : ∀ k, (detach_loop pc v l).1 !! k = None ↔ k ∉ attached_keys l).
  { intros k. unfold detach_loop. rewrite detach_existing. cbn.
    destruct (decide (k ∈ attached_keys l)); [|by rewrite lookup_empty].
    split; [done|]. by intros ?. }
  assert (Horder : ∀ k, k ∈ range_targets rg v ↔ is_Some (v !! k)).
  { intros k. by rewrite (range_targets_ok rg Hrg v), elem_of_keys. }
  split; [|split].
  - intros sender. rewrite !elem_of_app. unfold detach_loop.
    rewrite detach_fold_effects. cbn. split.
    + intros [[Hnil|(sender' & t & Hin & Ht & Hnone & [= <-])]|[Hat|Hoff]].
      * by apply not_elem_of_nil in Hnil.
      * eauto.
      * apply attach_loop_elem in Hat as (k & _ & _ & [=]).
      * by destruct (send_offer_shape lib u receiver _ Hoff) as (_ & ? & _).
    + intros (Hin & t & Ht & Hnone). left. right. by exists sender, t.
  - intros track. rewrite !elem_of_app. unfold detach_loop.
    rewrite detach_fold_effects, attach_loop_elem. cbn. split.
    + intros [[Hnil|(sender' & t & Hin & Ht & Hnone & [=])]|[(k & Hk & Hex & [= ->])|Hoff]].
      * by apply not_elem_of_nil in Hnil.
      * exists k. split; [by apply Horder|]. split; [by apply Hexisting | done].
      * by destruct (send_offer_shape lib u receiver _ Hoff) as (_ & ? & _).
    + intros (k & Hk & Hnot & ->). right. left. exists k.
      split; [by apply Horder|]. split; [by apply Hexisting | done].
  - intros x Hx Hchg.
    rewrite !elem_of_app in Hx. unfold detach_loop in Hx.
    rewrite detach_fold_effects, attach_loop_elem in Hx. cbn in Hx.
    destruct Hx as [[Hnil|(sender & t & _ & _ & _ & ->)]|[(k & _ & _ & ->)|Hoff]].
    + by apply not_elem_of_nil in Hnil.
    + left. eauto.
    + right. eauto.
    + destruct (send_offer_shape lib u receiver _ Hoff) as (_ & Hno & _). congruence.
Qed.

Lemma reconcile_diff_witness :
  ∃ e, reconcile (Sample.lib (λ _, [])) key_order Sample.one_track_one_subscriber 1%N
         {[ "camA" := true ]} = Some e
    ∧ (∀ sender,
         RemoveTrack (Connection Sample.subscriberX) sender ∈ e
         ↔ sender ∈ GetSenders (Sample.lib (λ _, [])) (Connection Sample.subscriberX)
           ∧ ∃ t, sender_Track sender = Some t
                  ∧ ({[ "camA" := true ]} : gmap string bool) !! trackKey t = None)
    ∧ (∀ track,
         AddTrack (Connection Sample.subscriberX) track ∈ e
         ↔ ∃ k, is_Some (({[ "camA" := true ]} : gmap string bool) !! k)
                ∧ (k ∉ attached_keys
                         (GetSenders (Sample.lib (λ _, [])) (Connection Sample.subscriberX)))
                ∧ track = senders Sample.one_track_one_subscriber !! k)
    ∧ (∀ x, x ∈ e → changes_tracks x = true →
         (∃ sender, x = RemoveTrack (Connection Sample.subscriberX) sender)
         ∨ (∃ track, x = AddTrack (Connection Sample.subscriberX) track)).
Proof.
  apply (reconcile_diff (Sample.lib (λ _, [])) key_order Sample.one_track_one_subscriber
           1%N {[ "camA" := true ]} Sample.subscriberX).
  - split; reflexivity.
  - reflexivity.
Defined.

End Reconciling.

Section RebalanceLaws.

Implicit Types (lib : Lib) (rg : Ranges) (s : Broadcaster) (u : UUID)
  (v : gmap string bool) (receiver : ReceiverState).

Lemma Forall2_pick_r {A B} (R : A → B → Prop) (l : list A) (k : list B) (y : B) :
  Forall2 R l k → y ∈ k → ∃ x, x ∈ l ∧ R x y.
Proof.
  induction 1 as [|a b l k Hab _ IH]; intros Hy.
  - by apply not_elem_of_nil in Hy.
  - apply elem_of_cons in Hy as [->|Hy].
    + exists a. split; [apply list_elem_of_here | done].
    + destruct (IH Hy) as (x & Hx & HR). exists x.
      split; [by apply list_elem_of_further | done].
Qed.

Lemma elem_of_concat_inv {A} (x : A) (ls : list (list A)) :
  x ∈ concat ls → ∃ l, l ∈ ls ∧ x ∈ l.
Proof.
  rewrite list_elem_of_In, in_concat. intros (l & Hl & Hx).
  exists l. by rewrite !list_elem_of_In.
Qed.

(** What a rebalance that returns has done. *)
Lemma rebalance_inv lib rg s s' eff :
  rebalanceReceivers lib rg s = Some (s', eff) →
  s' = (pruneClosedConnections lib rg s).1
  ∧ ∃ mtch effs,
      distributionFunction s' (range_senders rg (senders s'))
        (range_receivers rg (receivers s')) = Some mtch
      ∧ eff = (pruneClosedConnections lib rg s).2 ++ concat effs
      ∧ Forall2 (λ u e, ∃ v receiver,
                   mtch !! u = Some v ∧ receivers s' !! u = Some receiver
                   ∧ reconcile lib rg s' u v = Some e)
                (range_match rg mtch) effs.
Proof.
  unfold rebalanceReceivers. cbn zeta.
  set (pruned := pruneClosedConnections lib rg s).
  destruct (distributionFunction pruned.1 _ _) as [mtch|] eqn:Hpol; [|done]. cbn.
  set (f := λ u, mtch !! u ≫= λ v, reconcile lib rg pruned.1 u v).
  destruct (mapM f (range_match rg mtch)) as [effs|] eqn:Hm; [|done]. cbn.
  intros [= <- <-]. split; [done|]. exists mtch, effs. split; [done|]. split; [done|].
  apply mapM_Some_1 in Hm. eapply Forall2_impl; [exact Hm|].
  intros u e. unfold f. destruct (mtch !! u) as [v|] eqn:Hv; [|done]. cbn.
  intros He. exists v. unfold reconcile in *.
  destruct (receivers pruned.1 !! u) as [receiver|] eqn:Hr; [|done]. eauto.
Qed.

Lemma reconcile_elem_shape lib rg s u v receiver e x :
  receivers s !! u = Some receiver →
  reconcile lib rg s u v = Some e →
  x ∈ e →
  (∃ sender, x = RemoveTrack (Connection receiver) sender)
  ∨ (∃ track, x = AddTrack (Connection receiver) track)
  ∨ x ∈ send_offer lib u receiver.
Proof.
  unfold reconcile. intros ->. cbn. intros [= <-].
  rewrite !elem_of_app. unfold detach_loop.
  rewrite detach_fold_effects, attach_loop_elem. cbn.
  intros [[Hnil|(sender & t & _ & _ & _ & ->)]|[(k & _ & _ & ->)|Hoff]]; eauto.
  by apply not_elem_of_nil in Hnil.
Qed.

(** Every call of a rebalance is the going-away close of a pruned socket
    or belongs to the reconcile step of a subscriber that is registered
    after the pruning. *)
Lemma rebalance_elem_shape lib rg s s' eff x :
  rebalanceReceivers lib rg s = Some (s', eff) →
  x ∈ eff →
  (∃ u rs, receivers s !! u = Some rs ∧ is_closed lib rs = true
           ∧ x = SocketClose (SignalSocket rs) StatusGoingAway "WebRTC connection closed")
  ∨ ∃ u receiver,
      receivers s' !! u = Some receiver
      ∧ ((∃ sender, x = RemoveTrack (Connection receiver) sender)
         ∨ (∃ track, x = AddTrack (Connection receiver) track)
         ∨ x ∈ send_offer lib u receiver).
Proof.
  intros Hrun Hx.
  destruct (rebalance_inv lib rg s s' eff Hrun) as (Hs' & mtch & effs & _ & -> & Hall).
  apply elem_of_app in Hx as [Hx|Hx].
  - left. unfold pruneClosedConnections in Hx.
    apply prune_fold_effects in Hx as [Hnil|(u & rs & _ & Hr & Hc & ->)].
    + by apply not_elem_of_nil in Hnil.
    + by exists u, rs.
  - right. apply elem_of_concat_inv in Hx as (e & He & Hx).
    destruct (Forall2_pick_r _ _ _ e Hall He) as (u & _ & v & receiver & _ & Hr & Hrec).
    exists u, receiver. split; [done|].
    by apply (reconcile_elem_shape lib rg s' u v receiver e x).
Qed.

Lemma pruned_receiver_was_registered lib rg s u rs :
  receivers (pruneClosedConnections lib rg s).1 !! u = Some rs →
  receivers s !! u = Some rs ∧ (ranges_ok rg → is_closed lib rs = false).
Proof.
  unfold pruneClosedConnections. rewrite prune_fold_receivers. cbn.
  destruct (receivers s !! u) as [rs'|] eqn:Hu; [|done].
  destruct (is_closed lib rs' && bool_decide (u ∈ range_prune rg (receivers s))) eqn:Hb;
    [done|].
  intros [= <-]. split; [done|]. intros Hrg.
  apply andb_false_iff in Hb as [?|Hb]; [done|].
  apply bool_decide_eq_false_1 in Hb. destruct Hb.
  rewrite (range_prune_ok rg Hrg). apply elem_of_keys. eauto.
Qed.

(** X13: a rebalance touches neither tracks nor publishers nor the policy,
    admits no subscriber (every subscriber registered afterwards was
    registered before, with the same session and socket), and starts no
    goroutine: in particular it never triggers another rebalance. *)
Theorem rebalance_frame lib rg s s' eff :
  rebalanceReceivers lib rg s = Some (s', eff) →
  senders s' = senders s
  ∧ peerSender s' = peerSender s
  ∧ distributionFunction s' = distributionFunction s
  ∧ (∀ u rs, receivers s' !! u = Some rs → receivers s !! u = Some rs)
  ∧ Forall (λ e, spawns e = false) eff.
Proof.
  intros Hrun.
  destruct (rebalance_inv lib rg s s' eff Hrun) as (Hs' & _).
  destruct (pruneClosedConnections_frame lib rg s) as (Hd & Hse & Hp).
  rewrite <- Hs' in Hd, Hse, Hp.
  split; [done|]. split; [done|]. split; [done|]. split.
  - intros u rs Hu. rewrite Hs' in Hu.
    by apply (pruned_receiver_was_registered lib rg s u rs).
  - apply Forall_forall. intros x Hx.
    destruct (rebalance_elem_shape lib rg s s' eff x Hrun Hx)
      as [(u & rs & _ & _ & ->)|(u & receiver & _ & [(? & ->)|[(? & ->)|Hoff]])];
      try done.
    by destruct (send_offer_shape lib u receiver x Hoff) as (? & _).
Qed.

Lemma rebalance_frame_witness :
  let s := More.two_subscribers in
  let s' := (pruneClosedConnections More.lib_closed_30 key_order s).1 in
  let eff := [SocketClose 31 StatusGoingAway "WebRTC connection closed";
              AddTrack 20 (Some Sample.trackA);
              OfferCreate 20;
              LocalDescriptionSet 20 (Sample.offer_of 20);
              Log DebugLevel "Sending offer";
              SocketWrite 21 MessageText "{event:offer,data:{sdp:v=0}}"] in
  senders s' = senders s
  ∧ peerSender s' = peerSender s
  ∧ distributionFunction s' = distributionFunction s
  ∧ (∀ u rs, receivers s' !! u = Some rs → receivers s !! u = Some rs)
  ∧ Forall (λ e, spawns e = false) eff.
Proof.
  apply (rebalance_frame More.lib_closed_30 key_order More.two_subscribers).
  reflexivity.
Defined.

(** X14: during a rebalance a message is written only to the signaling
    socket of a subscriber that was registered before the rebalance, whose
    session is not closed and who is still registered afterwards; it is a
    text message.  The only sockets closed are those of pruned
    subscribers, with status going-away. *)
Theorem rebalance_writes_to_open_subscribers lib rg s s' eff :
  ranges_ok rg →
  rebalanceReceivers lib rg s = Some (s', eff) →
  (∀ c typ payload, SocketWrite c typ payload ∈ eff →
     typ = MessageText
     ∧ ∃ u rs, receivers s !! u = Some rs ∧ receivers s' !! u = Some rs
               ∧ is_closed lib rs = false ∧ SignalSocket rs = c)
  ∧ (∀ c code reason, SocketClose c code reason ∈ eff →
       code = StatusGoingAway
       ∧ ∃ u rs, receivers s !! u = Some rs ∧ receivers s' !! u = None
                 ∧ is_closed lib rs = true ∧ SignalSocket rs = c).
Proof.
  intros Hrg Hrun.
  destruct (rebalance_inv lib rg s s' eff Hrun) as (Hs' & _).
  split.
  - intros c typ payload Hx.
    destruct (rebalance_elem_shape lib rg s s' eff _ Hrun Hx)
      as [(u & rs & _ & _ & [=])|(u & receiver & Hr & [(? & [=])|[(? & [=])|Hoff]])].
    destruct (send_offer_shape lib u receiver _ Hoff) as (_ & _ & Hw & _).
    destruct (Hw c typ payload eq_refl) as [-> ->]. split; [done|].
    exists u, receiver. rewrite Hs' in Hr.
    destruct (pruned_receiver_was_registered lib rg s u receiver Hr) as [Hreg Hopen].
    rewrite Hs'. auto.
  - intros c code reason Hx.
    destruct (rebalance_elem_shape lib rg s s' eff _ Hrun Hx)
      as [(u & rs & Hr & Hc & [= -> -> ->])
         |(u & receiver & Hr & [(? & [=])|[(? & [=])|Hoff]])].
    + split; [done|]. exists u, rs. split; [done|]. split; [|done].
      rewrite Hs'.
      by rewrite (prune_receivers_spec lib rg s u Hrg), Hr, Hc.
    + destruct (send_offer_shape lib u receiver _ Hoff) as (_ & _ & _ & Hn).
      by destruct (Hn c code reason).
Qed.

Lemma rebalance_writes_to_open_subscribers_witness :
  let s := More.two_subscribers in
  let s' := (pruneClosedConnections More.lib_closed_30 key_order s).1 in
  let eff := [SocketClose 31 StatusGoingAway "WebRTC connection closed";
              AddTrack 20 (Some Sample.trackA);
              OfferCreate 20;
              LocalDescriptionSet 20 (Sample.offer_of 20);
              Log DebugLevel "Sending offer";
              SocketWrite 21 MessageText "{event:offer,data:{sdp:v=0}}"] in
  (∀ c typ payload, SocketWrite c typ payload ∈ eff →
     typ = MessageText
     ∧ ∃ u rs, receivers s !! u = Some rs ∧ receivers s' !! u = Some rs
               ∧ is_closed More.lib_closed_30 rs = false ∧ SignalSocket rs = c)
  ∧ (∀ c code reason, SocketClose c code reason ∈ eff →
       code = StatusGoingAway
       ∧ ∃ u rs, receivers s !! u = Some rs ∧ receivers s' !! u = None
                 ∧ is_closed More.lib_closed_30 rs = true ∧ SignalSocket rs = c).
Proof.
  apply (rebalance_writes_to_open_subscribers More.lib_closed_30 key_order
           More.two_subscribers).
  - split; reflexivity.
  - reflexivity.
Defined.

Lemma range_of_empty {K A} `{!EqDecision K, !Countable K} (l : list K) :
  l ≡ₚ keys (∅ : gmap K A) → l = [].
Proof.
  unfold keys. rewrite map_to_list_empty. cbn. by intros ?%Permutation_nil_r.
Qed.

(** X15: with either built-in policy a rebalance does not panic, and every
    subscriber whose session is not closed stays registered and has an
    offer requested from its session. *)
Theorem builtin_rebalance_reaches_open_subscribers lib rg s :
  ranges_ok rg →
  distributionFunction s = Policy.RRDistF ∨ distributionFunction s = Policy.AllDistF →
  ∃ s' eff,
    rebalanceReceivers lib rg s = Some (s', eff)
    ∧ ∀ u rs, receivers s !! u = Some rs → is_closed lib rs = false →
        receivers s' !! u = Some rs ∧ OfferCreate (Connection rs) ∈ eff.
Proof.
  intros Hrg Hpol.
  destruct (builtin_policy_rebalance_runs lib rg s Hrg Hpol) as (mtch & Hm & Hdom & _).
  destruct (rebalance_runs lib rg s mtch Hrg Hm) as (effs & Hrun & Hall).
  { by rewrite Hdom. }
  eexists _, _. split; [exact Hrun|].
  intros u rs Hu Hopen.
  assert (receivers (pruneClosedConnections lib rg s).1 !! u = Some rs) as Hkept.
  { by rewrite (prune_receivers_spec lib rg s u Hrg), Hu, Hopen. }
  split; [done|].
  assert (u ∈ range_match rg mtch) as Hin.
  { rewrite (range_match_ok rg Hrg mtch). apply elem_of_keys, elem_of_dom.
    rewrite Hdom. apply elem_of_dom. eauto. }
  destruct (Forall2_pick _ _ _ u Hall Hin) as (e & He & v & receiver & Hv & Hr & Hrec).
  assert (receiver = rs) as -> by congruence.
  apply elem_of_app. right. apply (elem_of_concat_2 _ e effs); [|done].
  apply (reconcile_ends_with_offer lib rg _ u v rs e Hr Hrec), send_offer_attempts.
Qed.

Lemma builtin_rebalance_reaches_open_subscribers_witness :
  ∃ s' eff,
    rebalanceReceivers More.lib_closed_30 key_order More.two_subscribers = Some (s', eff)
    ∧ ∀ u rs, receivers More.two_subscribers !! u = Some rs →
        is_closed More.lib_closed_30 rs = false →
        receivers s' !! u = Some rs ∧ OfferCreate (Connection rs) ∈ eff.
Proof.
  apply (builtin_rebalance_reaches_open_subscribers More.lib_closed_30 key_order
           More.two_subscribers).
  - split; reflexivity.
  - left. reflexivity.
Defined.

(** X16: with no subscriber registered, a rebalance under either built-in
    policy does nothing at all: the registry is returned as it is and no
    call is made, however many tracks are registered. *)
Theorem rebalance_without_subscribers lib rg s :
  ranges_ok rg →
  distributionFunction s = Policy.RRDistF ∨ distributionFunction s = Policy.AllDistF →
  receivers s = ∅ →
  rebalanceReceivers lib rg s = Some (s, []).
Proof.
  intros Hrg Hpol Hempty.
  assert (pruneClosedConnections lib rg s = (s, [])) as Hprune.
  { unfold pruneClosedConnections.
    rewrite (range_of_empty (A := ReceiverState) (range_prune rg (receivers s))); [done|].
    rewrite <- Hempty. apply (range_prune_ok rg Hrg). }
  unfold rebalanceReceivers. cbn zeta. rewrite Hprune. cbn.
  rewrite (range_of_empty (A := ReceiverState) (range_receivers rg (receivers s))).
  2:{ rewrite <- Hempty. apply (range_receivers_ok rg Hrg). }
  assert (distributionFunction s (range_senders rg (senders s)) [] = Some ∅) as ->.
  { by destruct Hpol as [-> | ->]. }
  cbn. rewrite (range_of_empty (A := gmap string bool) (range_match rg ∅)).
  - done.
  - apply (range_match_ok rg Hrg).
Qed.

Lemma rebalance_without_subscribers_witness :
  rebalanceReceivers (Sample.lib (λ _, [])) key_order Sample.one_track
  = Some (Sample.one_track, []).
Proof.
  apply (rebalance_without_subscribers (Sample.lib (λ _, [])) key_order Sample.one_track).
  - split; reflexivity.
  - left. reflexivity.
  - reflexivity.
Defined.

End RebalanceLaws.

(** * Further properties of the policies *)

Section PolicyLaws.

Import Policy.

(** X17: [AllDist] looks at its two lists as sets: reordering them or
    repeating elements does not change the assignment. *)
Theorem AllDist_depends_on_sets_only senders senders' receivers receivers' :
  (∀ k, k ∈ senders ↔ k ∈ senders') →
  (∀ u, u ∈ receivers ↔ u ∈ receivers') →
  AllDist senders receivers = AllDist senders' receivers'.
Proof.
  intros Hs Hr. apply map_eq. intros u. rewrite !AllDist_lookup.
  assert (sendersMap senders = sendersMap senders') as ->.
  { apply map_eq. intros k. rewrite !sendersMap_lookup.
    destruct (decide (k ∈ senders)) as [Hin|Hnin].
    - rewrite decide_True; [done | by apply Hs].
    - rewrite decide_False; [done | by rewrite <- Hs]. }
  destruct (decide (u ∈ receivers)) as [Hin|Hnin].
  - rewrite decide_True; [done | by apply Hr].
  - rewrite decide_False; [done | by rewrite <- Hr].
Qed.

Lemma AllDist_depends_on_sets_only_witness :
  AllDist ["A"; "B"] [1%N; 2%N] = AllDist ["B"; "A"; "B"] [2%N; 1%N; 1%N].
Proof.
  apply AllDist_depends_on_sets_only.
  - intros k. rewrite !elem_of_cons, !elem_of_nil. naive_solver.
  - intros u. rewrite !elem_of_cons, !elem_of_nil. naive_solver.
Defined.

(** The entries of the round-robin assignment, for a non-empty subscriber
    list: the keys of the entry of [r] are the tracks whose index is mapped
    to an index of [r]. *)
Lemma RRDist_entries senders receivers :
  receivers ≠ [] →
  ∃ out, RRDist senders receivers = Some out
    ∧ (∀ r, r ∈ receivers → is_Some (out !! r))
    ∧ (∀ r v k, out !! r = Some v →
         is_Some (v !! k)
         ↔ ∃ i, senders !! i = Some k ∧ receivers !! (i mod length receivers) = Some r).
Proof.
  intros Hne. unfold RRDist. rewrite decide_False by (by destruct receivers).
  destruct (rr_loop_spec receivers senders 0 (rr_init receivers ∅) Hne)
    as (out & Hout & Hdom & Hframe & Hassign).
  { intros r Hr. rewrite rr_init_lookup, decide_True by done. eauto. }
  assert (Hinit : ∀ r, is_Some (out !! r) → rr_init receivers ∅ !! r = Some ∅).
  { intros r Hr. apply elem_of_dom in Hr. rewrite Hdom in Hr.
    apply elem_of_dom in Hr as [m Hm]. rewrite Hm. f_equal.
    rewrite rr_init_lookup in Hm. destruct (decide (r ∈ receivers)); [congruence|].
    by rewrite lookup_empty in Hm. }
  exists out. split; [done|]. split.
  - intros r Hr. apply elem_of_dom. rewrite Hdom. apply elem_of_dom.
    rewrite rr_init_lookup, decide_True by done. eauto.
  - intros r v k Hv. split.
    + intros [b Hb].
      destruct (Hframe r ∅ (Hinit r (mk_is_Some _ _ Hv))) as (v' & Hv' & _ & Hnew).
      assert (v' = v) as -> by congruence.
      destruct (Hnew k b Hb) as [Hold|(_ & i & Hi & Hir)].
      * by rewrite lookup_empty in Hold.
      * by exists i.
    + intros (i & Hi & Hir). destruct (Hassign i k r Hi Hir) as (v' & Hv' & Hk).
      assert (v' = v) as -> by congruence. eauto.
Qed.

(** X18: round-robin over distinct tracks and at least one subscriber is a
    partition: every track is in the entry of one subscriber and of no
    other. *)
Theorem RRDist_assigns_each_track_once senders receivers :
  NoDup senders → receivers ≠ [] →
  ∃ out, RRDist senders receivers = Some out
    ∧ ∀ k, k ∈ senders →
        ∃ r v, out !! r = Some v ∧ is_Some (v !! k)
               ∧ ∀ r' v', out !! r' = Some v' → is_Some (v' !! k) → r' = r.
Proof.
  intros Hs Hne.
  destruct (RRDist_entries senders receivers Hne) as (out & Hout & Hall & Hchar).
  exists out. split; [done|]. intros k Hk.
  apply list_elem_of_lookup in Hk as [i Hi].
  destruct (mod_index_in_range receivers i Hne) as [r Hir].
  destruct (Hall r) as [v Hv]; [by eapply list_elem_of_lookup_2|].
  exists r, v. split; [done|]. split.
  - apply (Hchar r v k Hv). by exists i.
  - intros r' v' Hv' Hk'. apply (Hchar r' v' k Hv') in Hk' as (i' & Hi' & Hir').
    assert (i' = i) as -> by exact (NoDup_lookup senders i' i k Hs Hi' Hi).
    congruence.
Qed.

Lemma RRDist_assigns_each_track_once_witness :
  ∃ out, RRDist ["A"; "B"; "C"] [1%N; 2%N] = Some out
    ∧ ∀ k, k ∈ ["A"; "B"; "C"] →
        ∃ r v, out !! r = Some v ∧ is_Some (v !! k)
               ∧ ∀ r' v', out !! r' = Some v' → is_Some (v' !! k) → r' = r.
Proof.
  apply RRDist_assigns_each_track_once.
  - apply (bool_decide_unpack _). reflexivity.
  - discriminate.
Defined.

(** *** Fairness of round-robin *)

Lemma hits_snoc S i n j :
  hits S i (Datatypes.S n) j = hits S i n j + (if decide ((i + n) mod S = j) then 1 else 0).
Proof.
  revert i. induction n as [|n IH]; intros i.
  - cbn. replace (i + 0) with i by lia. destruct (decide (i mod S = j)); lia.
  - change (hits S i (Datatypes.S (Datatypes.S n)) j)
      with ((if decide (i mod S = j) then 1 else 0) + hits S (Datatypes.S i) (Datatypes.S n) j).
    rewrite IH. cbn [hits].
    replace (Datatypes.S i + n) with (i + Datatypes.S n) by lia.
    destruct (decide (i mod S = j)); destruct (decide ((i + Datatypes.S n) mod S = j)); lia.
Qed.

(** Counting from index 0 the hits have a closed form: every slot gets
    [n / S] tracks and the first [n mod S] slots one more. *)
Lemma hits_closed_form S n j :
  S ≠ 0 → j < S →
  hits S 0 n j = n / S + (if decide (j < n mod S) then 1 else 0).
Proof.
  intros HS Hj. induction n as [|n IH].
  - cbn. rewrite Nat.Div0.div_0_l, Nat.Div0.mod_0_l.
    destruct (decide (j < 0)); lia.
  - rewrite hits_snoc, IH. cbn [Nat.add].
    pose proof (Nat.div_mod_eq n S) as Hn.
    pose proof (Nat.mod_upper_bound n S HS) as Hr.
    set (q := n / S) in *. set (r := n mod S) in *.
    destruct (decide (r + 1 < S)) as [Hlt|Hge].
    + assert (Datatypes.S n / S = q) as ->.
      { symmetry. apply (Nat.div_unique _ _ _ (r + 1)); lia. }
      assert (Datatypes.S n mod S = r + 1) as ->.
      { symmetry. apply (Nat.mod_unique _ _ q); lia. }
      repeat case_decide; lia.
    + assert (Datatypes.S n / S = q + 1) as ->.
      { symmetry. apply (Nat.div_unique _ _ _ 0); lia. }
      assert (Datatypes.S n mod S = 0) as ->.
      { symmetry. apply (Nat.mod_unique _ _ (q + 1)); lia. }
      repeat case_decide; lia.
Qed.

(** A set whose members are the elements of a duplicate-free list at the
    offsets that hit slot [j] has as many members as there are hits. *)
Lemma size_by_hits S j (l : list string) : ∀ i (v : gmap string bool),
  NoDup l →
  (∀ k, is_Some (v !! k) ↔ ∃ t, l !! t = Some k ∧ (i + t) mod S = j) →
  size v = hits S i (length l) j.
Proof.
  induction l as [|x l IH]; intros i v Hnd Hv.
  - cbn. apply map_size_empty_iff, map_empty. intros k.
    destruct (v !! k) as [b|] eqn:Hk; [|done].
    destruct (proj1 (Hv k) (mk_is_Some _ _ Hk)) as (t & Ht & _).
    by rewrite lookup_nil in Ht.
  - apply NoDup_cons in Hnd as [Hx Hnd]. cbn [length hits].
    assert (Hshift : ∀ t, (i + Datatypes.S t) mod S = (Datatypes.S i + t) mod S).
    { intros t. f_equal. lia. }
    destruct (decide (i mod S = j)) as [Hhit|Hmiss].
    + assert (is_Some (v !! x)) as [b Hb].
      { apply Hv. exists 0. split; [done|]. by rewrite Nat.add_0_r. }
      rewrite <- (IH (Datatypes.S i) (delete x v) Hnd).
      * rewrite map_size_delete, Hb. cbn.
        assert (size v ≠ 0); [|lia].
        intros Hz. apply map_size_empty_iff in Hz. subst v.
        by rewrite lookup_empty in Hb.
      * intros k. destruct (decide (k = x)) as [->|Hne].
        -- rewrite lookup_delete_eq. split; [by intros [? ?]|].
           intros (t & Ht & _). destruct Hx. by eapply list_elem_of_lookup_2.
        -- rewrite lookup_delete_ne by done. rewrite Hv. split.
           ++ intros ([|t] & Ht & Hm); [by inversion Ht; subst|].
              exists t. split; [done|]. by rewrite <- Hshift.
           ++ intros (t & Ht & Hm). exists (Datatypes.S t).
              split; [done|]. by rewrite Hshift.
    + cbn. apply IH; [done|]. intros k. rewrite Hv. split.
      * intros ([|t] & Ht & Hm).
        -- rewrite Nat.add_0_r in Hm. done.
        -- exists t. split; [done|]. by rewrite <- Hshift.
      * intros (t & Ht & Hm). exists (Datatypes.S t).
        split; [done|]. by rewrite Hshift.
Qed.

(** X19: round-robin over [P] distinct tracks and [S ≥ 1] distinct
    subscribers is as fair as can be: the subscriber at index [j] receives
    [P / S] tracks, plus one when [j < P mod S]; so any two subscribers'
    counts differ by at most one. *)
Theorem RRDist_is_fair senders receivers :
  NoDup senders → NoDup receivers → receivers ≠ [] →
  ∃ out, RRDist senders receivers = Some out
    ∧ (∀ j r, receivers !! j = Some r →
         ∃ v, out !! r = Some v
              ∧ size v = length senders / length receivers
                         + (if decide (j < length senders mod length receivers)
                            then 1 else 0))
    ∧ (∀ r r' (v v' : gmap string bool),
         out !! r = Some v → out !! r' = Some v' → (size v ≤ size v' + 1)%nat).
Proof.
  intros Hs Hr Hne.
  destruct (RRDist_entries senders receivers Hne) as (out & Hout & Hall & Hchar).
  assert (HS : length receivers ≠ 0) by (by destruct receivers).
  assert (Hcount : ∀ j r, receivers !! j = Some r →
            ∃ v, out !! r = Some v
                 ∧ size v = length senders / length receivers
                            + (if decide (j < length senders mod length receivers)
                               then 1 else 0)).
  { intros j r Hj. destruct (Hall r) as [v Hv]; [by eapply list_elem_of_lookup_2|].
    exists v. split; [done|].
    rewrite <- hits_closed_form; [|done|by eapply lookup_lt_Some].
    apply size_by_hits; [done|]. intros k. rewrite (Hchar r v k Hv). split.
    - intros (i & Hi & Hir). exists i. split; [done|]. cbn.
      exact (NoDup_lookup receivers _ _ r Hr Hir Hj).
    - intros (i & Hi & Him). exists i. split; [done|]. cbn in Him. by rewrite Him. }
  exists out. split; [done|]. split; [done|].
  intros r r' v v' Hv Hv'.
  assert (∀ r v, out !! r = Some v → ∃ j, receivers !! j = Some r) as Hidx.
  { intros r0 v0 Hv0.
    destruct (decide (r0 ∈ receivers)) as [Hin|Hnin];
      [by apply list_elem_of_lookup in Hin|].
    exfalso. unfold RRDist in Hout. rewrite decide_False in Hout by done.
    destruct (rr_loop_spec receivers senders 0 (rr_init receivers ∅) Hne)
      as (out' & Hout' & Hdom & _).
    { intros x Hx. rewrite rr_init_lookup, decide_True by done. eauto. }
    assert (out' = out) as -> by congruence.
    assert (r0 ∈ dom out) as Hd by (apply elem_of_dom; eauto).
    rewrite Hdom in Hd. apply elem_of_dom in Hd as [m Hm].
    rewrite rr_init_lookup, decide_False, lookup_empty in Hm by done. done. }
  destruct (Hidx r v Hv) as [j Hj]. destruct (Hidx r' v' Hv') as [j' Hj'].
  destruct (Hcount j r Hj) as (w & Hw & Hsz).
  destruct (Hcount j' r' Hj') as (w' & Hw' & Hsz').
  assert (w' = v') as -> by congruence. assert (w = v) as -> by congruence.
  rewrite Hsz, Hsz'. repeat case_decide; lia.
Qed.

Lemma RRDist_is_fair_witness :
  ∃ out, RRDist ["A"; "B"; "C"] [1%N; 2%N] = Some out
    ∧ (∀ j r, [1%N; 2%N] !! j = Some r →
         ∃ v, out !! r = Some v
              ∧ size v = length ["A"; "B"; "C"] / length [1%N; 2%N]
                         + (if decide (j < length ["A"; "B"; "C"] mod length [1%N; 2%N])
                            then 1 else 0))
    ∧ (∀ r r' (v v' : gmap string bool),
         out !! r = Some v → out !! r' = Some v' → (size v ≤ size v' + 1)%nat).
Proof.
  apply RRDist_is_fair.
  - apply (bool_decide_unpack _). reflexivity.
  - apply (bool_decide_unpack _). reflexivity.
  - discriminate.
Defined.

End PolicyLaws.

(** * Further properties of the WHIP handlers *)

Section WhipLaws.

Implicit Types (lib : Lib) (env : IngestEnv) (b : Broadcaster)
  (w : ResponseWriter) (r : Request).

(** X20: a delete request whose id does not parse, or names no publisher,
    is answered 404 Not Found; the registry is returned as it is and no
    session is closed. *)
Theorem whipDeleteHandler_not_found lib b w r :
  resp_status w = None →
  (∀ id, uuid_Parse lib (req_peerID r) = Ok id → GetPeerSender b id = None) →
  (whipDeleteHandler lib b w r).1.1 = b
  ∧ resp_status (whipDeleteHandler lib b w r).1.2 = Some StatusNotFound
  ∧ resp_body (whipDeleteHandler lib b w r).1.2 = resp_body w +:+ ("Not Found" +:+ newline)
  ∧ (whipDeleteHandler lib b w r).2 = [].
Proof.
  intros Hw Hunknown. unfold whipDeleteHandler.
  destruct (uuid_Parse lib (req_peerID r)) as [id|e].
  - rewrite (Hunknown id eq_refl). cbn [fst snd].
    by rewrite http_Error_status, http_Error_body.
  - cbn [fst snd]. by rewrite http_Error_status, http_Error_body.
Qed.

Lemma whipDeleteHandler_not_found_witness :
  let lib := Sample.lib (λ _, []) in
  let b := NewBroadcaster Policy.RRDistF in
  (whipDeleteHandler lib b emptyResponse Sample.delete_request).1.1 = b
  ∧ resp_status (whipDeleteHandler lib b emptyResponse Sample.delete_request).1.2
    = Some StatusNotFound
  ∧ resp_body (whipDeleteHandler lib b emptyResponse Sample.delete_request).1.2
    = resp_body emptyResponse +:+ ("Not Found" +:+ newline)
  ∧ (whipDeleteHandler lib b emptyResponse Sample.delete_request).2 = [].
Proof.
  apply (whipDeleteHandler_not_found (Sample.lib (λ _, []))
           (NewBroadcaster Policy.RRDistF) emptyResponse Sample.delete_request).
  - reflexivity.
  - intros id _. reflexivity.
Defined.

(** X21: when the publisher is found but its session fails to close, the
    delete request is answered 500 Internal Server Error, the failure is
    logged, and the registry is returned as it is: the publisher stays. *)
Theorem whipDeleteHandler_close_fails lib b w r id peer e :
  resp_status w = None →
  uuid_Parse lib (req_peerID r) = Ok id →
  GetPeerSender b id = Some peer →
  PeerConn_Close lib (PeerConn peer) = Some e →
  (whipDeleteHandler lib b w r).1.1 = b
  ∧ resp_status (whipDeleteHandler lib b w r).1.2 = Some StatusInternalServerError
  ∧ (whipDeleteHandler lib b w r).2
    = [ConnClose (PeerConn peer); Log ErrorLevel "Unable to close peer connection"].
Proof.
  intros Hw Hparse Hpeer Hclose. unfold whipDeleteHandler.
  rewrite Hparse, Hpeer, Hclose. cbn [fst snd]. by rewrite http_Error_status.
Qed.

Lemma whipDeleteHandler_close_fails_witness :
  (whipDeleteHandler More.lib_no_close Sample.one_publisher emptyResponse
     Sample.delete_request).1.1 = Sample.one_publisher
  ∧ resp_status (whipDeleteHandler More.lib_no_close Sample.one_publisher emptyResponse
                   Sample.delete_request).1.2 = Some StatusInternalServerError
  ∧ (whipDeleteHandler More.lib_no_close Sample.one_publisher emptyResponse
       Sample.delete_request).2
    = [ConnClose (PeerConn Sample.publisher);
       Log ErrorLevel "Unable to close peer connection"].
Proof.
  exact (whipDeleteHandler_close_fails More.lib_no_close Sample.one_publisher
           emptyResponse Sample.delete_request 7%N Sample.publisher
           (ErrOther "close failed") eq_refl eq_refl eq_refl eq_refl).
Defined.

(** X22: an ingest request with Content-Type [application/sdp] whose body
    is read and whose session is set up without error is answered 201
    Created with, after the headers already set, Content-Type
    [application/sdp], Location [/whip/<id>], the entity tag in double
    quotes and Accept-Patch [application/trickle-ice-sdpfrag]; the body is
    the SDP of the local description; the publisher is registered under
    the fresh id with that entity tag and session; tracks and subscribers
    are untouched. *)
Theorem whipHandler_created lib env b w r boffer peer answer local :
  req_content_type r = "application/sdp" →
  resp_status w = None →
  req_Body r = Ok boffer →
  NewPeerConnection env = Ok peer →
  SetRemoteDescription env {| sd_Type := SDPTypeOffer; sd_SDP := boffer |} = None →
  CreateAnswer env = Ok answer →
  SetLocalDescription_answer env answer = None →
  LocalDescription env = Some local →
  ∃ b' w' eff,
    whipHandler lib env b w r = Some (b', w', eff)
    ∧ resp_status w' = Some StatusCreated
    ∧ resp_Header w'
      = resp_Header w
        ++ [("Content-Type", "application/sdp");
            ("Location", "/whip/" +:+ uuid_String lib (uuid_New env));
            ("Etag", dquote +:+ uuid_NewString env +:+ dquote);
            ("Accept-Patch", "application/trickle-ice-sdpfrag")]
    ∧ resp_body w' = resp_body w +:+ sd_SDP local
    ∧ GetPeerSender b' (uuid_New env)
      = Some {| ETag := uuid_NewString env; PeerConn := peer |}
    ∧ senders b' = senders b ∧ receivers b' = receivers b
    ∧ OnTrack peer ∈ eff.
Proof.
  intros Hct Hw Hbody Hpeer Hremote Hanswer Hlocal Hdesc.
  unfold whipHandler. rewrite decide_False by (by intros ?).
  rewrite Hbody, Hpeer, Hremote, Hanswer, Hlocal, Hdesc. cbn.
  eexists _, _, _. split; [reflexivity|].
  unfold Write, WriteHeader, Header_Add, AddPeerSender, GetPeerSender. cbn.
  rewrite Hw. cbn. rewrite <- !app_assoc. cbn.
  repeat split; try done.
  - apply lookup_insert_eq.
  - apply elem_of_app. right. apply list_elem_of_here.
Qed.

Lemma whipHandler_created_witness :
  ∃ b' w' eff,
    whipHandler (Sample.lib (λ _, [])) Sample.ingest_env (NewBroadcaster Policy.RRDistF)
      emptyResponse
      {| req_content_type := "application/sdp"; req_Body := Ok "v=0";
         req_peerID := EmptyString |}
    = Some (b', w', eff)
    ∧ resp_status w' = Some StatusCreated
    ∧ resp_Header w'
      = resp_Header emptyResponse
        ++ [("Content-Type", "application/sdp");
            ("Location",
             "/whip/" +:+ uuid_String (Sample.lib (λ _, [])) (uuid_New Sample.ingest_env));
            ("Etag", dquote +:+ uuid_NewString Sample.ingest_env +:+ dquote);
            ("Accept-Patch", "application/trickle-ice-sdpfrag")]
    ∧ resp_body w'
      = resp_body emptyResponse +:+ sd_SDP {| sd_Type := SDPTypeAnswer; sd_SDP := "v=0" |}
    ∧ GetPeerSender b' (uuid_New Sample.ingest_env)
      = Some {| ETag := uuid_NewString Sample.ingest_env; PeerConn := 10 |}
    ∧ senders b' = senders (NewBroadcaster Policy.RRDistF)
    ∧ receivers b' = receivers (NewBroadcaster Policy.RRDistF)
    ∧ OnTrack 10 ∈ eff.
Proof.
  exact (whipHandler_created (Sample.lib (λ _, [])) Sample.ingest_env
           (NewBroadcaster Policy.RRDistF) emptyResponse
           {| req_content_type := "application/sdp"; req_Body := Ok "v=0";
              req_peerID := EmptyString |}
           "v=0" 10 {| sd_Type := SDPTypeAnswer; sd_SDP := "v=0" |}
           {| sd_Type := SDPTypeAnswer; sd_SDP := "v=0" |}
           eq_refl eq_refl eq_refl eq_refl eq_refl eq_refl eq_refl eq_refl).
Defined.

(** X23: whenever the ingest handler returns, it has either answered 201
    Created and registered exactly one publisher, under the fresh id, or
    left the registry as it was; it never answers 201 without registering
    and never registers without answering 201. *)
Theorem whipHandler_registers_iff_created lib env b w r b' w' eff :
  resp_status w = None →
  whipHandler lib env b w r = Some (b', w', eff) →
  (resp_status w' = Some StatusCreated
   ∧ ∃ peer, NewPeerConnection env = Ok peer
             ∧ b' = set_peerSender
                      <[uuid_New env := {| ETag := uuid_NewString env; PeerConn := peer |}]> b)
  ∨ (resp_status w' ≠ Some StatusCreated ∧ b' = b).
Proof.
  intros Hw. unfold whipHandler.
  destruct (decide (req_content_type r ≠ "application/sdp")) as [Hct|Hct].
  { intros [= <- <- <-]. right. split; [|done].
    by rewrite http_Error_status. }
  destruct (req_Body r) as [boffer|e]; [|intros [= <- <- <-]; right; by rewrite Hw].
  destruct (NewPeerConnection env) as [peer|]; [|done].
  destruct (SetRemoteDescription env _); [done|].
  destruct (CreateAnswer env) as [answer|]; [|done].
  destruct (SetLocalDescription_answer env answer); [done|].
  destruct (LocalDescription env) as [local|]; [|done]. cbn.
  intros [= <- <- <-]. left. split.
  - unfold Write, WriteHeader, Header_Add. cbn. by rewrite Hw.
  - by exists peer.
Qed.

Lemma whipHandler_registers_iff_created_witness :
  (resp_status (http_Error emptyResponse "Unsupported content type" StatusNotAcceptable)
   = Some StatusCreated
   ∧ ∃ peer, NewPeerConnection Sample.ingest_env = Ok peer
             ∧ NewBroadcaster Policy.RRDistF
               = set_peerSender
                   <[uuid_New Sample.ingest_env :=
                       {| ETag := uuid_NewString Sample.ingest_env; PeerConn := peer |}]>
                   (NewBroadcaster Policy.RRDistF))
  ∨ (resp_status (http_Error emptyResponse "Unsupported content type" StatusNotAcceptable)
     ≠ Some StatusCreated
     ∧ NewBroadcaster Policy.RRDistF = NewBroadcaster Policy.RRDistF).
Proof.
  apply (whipHandler_registers_iff_created (Sample.lib (λ _, [])) Sample.ingest_env
           (NewBroadcaster Policy.RRDistF) emptyResponse Sample.text_request
           (NewBroadcaster Policy.RRDistF)
           (http_Error emptyResponse "Unsupported content type" StatusNotAcceptable) []).
  - reflexivity.
  - reflexivity.
Defined.

End WhipLaws.

(** * Properties of the signaling handler *)

Section SignalingLaws.

Implicit Types (env : SignalEnv) (b : Broadcaster) (script : list SignalIO).

Lemma signal_iter_serving pc io :
  (signal_iter pc io).1 = Serving ↔ tolerated io = true.
Proof.
  destruct io as [err ga|err| |event data decode apply]; cbn; try done.
  destruct (decide (event = "candidate")); [|destruct (decide (event = "answer"))].
  - destruct decode; [done|]. by destruct apply.
  - destruct decode; [done|]. by destruct apply.
  - done.
Qed.

(** X24: the read loop is still serving after a run of frames exactly when
    every frame was tolerated: events other than candidate and answer are
    ignored, and an answer that the session rejects only for its missing
    ice-ufrag does not end the conversation. *)
Theorem signalLoop_serving_iff pc script :
  (signalLoop pc script).1 = Serving ↔ Forall (λ io, tolerated io = true) script.
Proof.
  induction script as [|io rest IH]; cbn [signalLoop].
  - split; [constructor | done].
  - rewrite Forall_cons, <- IH, <- (signal_iter_serving pc).
    destruct (signal_iter pc io) as [[| |] eff]; cbn.
    + split; [by split | by intros [_ ?]].
    + split; [done | by intros [? _]].
    + split; [done | by intros [? _]].
Qed.

(** X25: a client that is not admitted leaves no trace in the registry.
    When the websocket upgrade fails, or when no media session can be
    created, the registry is returned as it is and nothing is spawned; in
    the second case the socket that was accepted is closed with status
    internal-error. *)
Theorem webSocketHandler_not_admitted env b script :
  (∃ e, ws_Accept env = Err e)
  ∨ (∃ e, ws_NewPeerConnection env = Err e) →
  (webSocketHandler env b script).1.1 = b
  ∧ (webSocketHandler env b script).1.2 = Finished
  ∧ (Core GoRebalance ∉ (webSocketHandler env b script).2)
  ∧ (∀ c, ws_Accept env = Ok c →
       Core (SocketClose c StatusInternalError "the sky is falling")
       ∈ (webSocketHandler env b script).2).
Proof.
  unfold webSocketHandler. intros [[e He]|[e He]].
  - rewrite He. cbn. repeat split; [|done].
    rewrite list_elem_of_singleton. discriminate.
  - rewrite He. destruct (ws_Accept env) as [c|e']; cbn.
    + repeat split.
      * rewrite !elem_of_cons, elem_of_nil. intros [?|[?|[]]]; discriminate.
      * intros c' [= <-]. apply list_elem_of_further, list_elem_of_here.
    + repeat split; [|done]. rewrite list_elem_of_singleton. discriminate.
Qed.

Lemma webSocketHandler_not_admitted_witness :
  (webSocketHandler More.signal_env_no_session Sample.one_track []).1.1 = Sample.one_track
  ∧ (webSocketHandler More.signal_env_no_session Sample.one_track []).1.2 = Finished
  ∧ (Core GoRebalance
     ∉ (webSocketHandler More.signal_env_no_session Sample.one_track []).2)
  ∧ (∀ c, ws_Accept More.signal_env_no_session = Ok c →
       Core (SocketClose c StatusInternalError "the sky is falling")
       ∈ (webSocketHandler More.signal_env_no_session Sample.one_track []).2).
Proof.
  apply (webSocketHandler_not_admitted More.signal_env_no_session Sample.one_track []).
  right. by exists (ErrOther "no session").
Defined.



(** X27: the state-change callback acts on the states failed and closed
    only.  For those it closes the session and removes the subscriber, so
    that for a subscriber admitted under a fresh id the registry is again
    the one from before the admission; for every other state it does
    nothing. *)
Theorem onConnectionStateChange_undoes_admission lib b state id p :
  receivers b !! id = None →
  let admitted := (AddReceiver b state id).1.1 in
  let r := onConnectionStateChange lib admitted (Connection state) id p in
  match p with
  | PeerConnectionStateFailed | PeerConnectionStateClosed =>
      r.1 = b
      ∧ ConnClose (Connection state) ∈ r.2
      ∧ SocketClose (SignalSocket state) StatusNormalClosure "Ending operation" ∈ r.2
      ∧ GoRebalance ∈ r.2
  | _ => r = (admitted, [])
  end.
Proof.
  intros Hfresh admitted r.
  assert (Hrm : RemoveReceiver admitted id
                = (b, [SocketClose (SignalSocket state) StatusNormalClosure "Ending operation";
                       ConnClose (Connection state); GoRebalance])).
  { unfold admitted, AddReceiver, RemoveReceiver. cbn. rewrite lookup_insert_eq. cbn.
    f_equal. destruct b as [ps ss rs df]. unfold set_receivers. cbn in *.
    by rewrite delete_insert_id. }
  unfold r, onConnectionStateChange. destruct p; try done; rewrite Hrm; cbn;
    (split; [done|]; split; [apply list_elem_of_here|]; split;
     apply elem_of_cons; right; apply elem_of_app; right;
     rewrite !elem_of_cons; auto).
Qed.

Lemma onConnectionStateChange_undoes_admission_witness :
  let admitted := (AddReceiver Sample.one_track Sample.subscriberX 1%N).1.1 in
  let r := onConnectionStateChange (Sample.lib (λ _, [])) admitted
             (Connection Sample.subscriberX) 1%N PeerConnectionStateFailed in
  r.1 = Sample.one_track
  ∧ ConnClose (Connection Sample.subscriberX) ∈ r.2
  ∧ SocketClose (SignalSocket Sample.subscriberX) StatusNormalClosure "Ending operation"
    ∈ r.2
  ∧ GoRebalance ∈ r.2.
Proof.
  exact (onConnectionStateChange_undoes_admission (Sample.lib (λ _, []))
           Sample.one_track Sample.subscriberX 1%N PeerConnectionStateFailed eq_refl).
Defined.

End SignalingLaws.
